(** * photo-haven: ownership and membership of photos and albums

    A shallow embedding of the relational schema of the application (the
    five tables with their keys, foreign-key actions and row-level-security
    policies, the bucket of photos and the signup trigger) and of the
    handlers of the pages [Home], [Albums], [AlbumDetail] and [Profile]
    that talk to it through the client library.

    How the backend is read:
    - a table is the list of its rows in stored order; an [insert] appends,
      a [delete] keeps the order of the rows that stay, a [select] returns
      the rows the select policy shows to the caller, in stored order unless
      the query has an [order];
    - a statement is all or nothing: an [insert] of several rows that fails
      on one of them leaves the table as it was;
    - foreign keys are checked, and their actions run, without regard to
      row-level security;
    - [auth.uid()] is the user of the session of the caller, null without
      a session;
    - what is outside (clock, uuid generator, network, blob store, the
      answer to [confirm]) is an explicit input, [env]. *)

From stdpp Require Import base decidable option list strings gmap sorting pretty.
From Stdlib Require Import Ascii.

Local Open Scope string_scope.
Local Open Scope Z_scope.
Local Open Scope list_scope.

(** * Model *)

(** ** Rows *)

Abbreviation uuid := string (only parsing).
Abbreviation timestamptz := Z (only parsing).

Module AuthUser.
Record t := mk { id : uuid; email : option string }.

#[global] Instance auth_user_eq_dec : EqDecision t.
Proof. solve_decision. Defined.
End AuthUser.

Module Profile.
Record t := mk {
  id : uuid;
  user_id : uuid;
  display_name : option string;
  avatar_url : option string;
  created_at : timestamptz }.

#[global] Instance profile_eq_dec : EqDecision t.
Proof. solve_decision. Defined.
End Profile.

Module Photo.
Record t := mk {
  id : uuid;
  user_id : uuid;
  url : string;
  title : option string;
  description : option string;
  created_at : timestamptz }.

#[global] Instance photo_eq_dec : EqDecision t.
Proof. solve_decision. Defined.
End Photo.

Module Album.
Record t := mk {
  id : uuid;
  user_id : uuid;
  name : string;
  description : option string;
  cover_photo_id : option uuid;
  created_at : timestamptz }.

#[global] Instance album_eq_dec : EqDecision t.
Proof. solve_decision. Defined.

Definition set_cover_photo_id (c : option uuid) (a : t) : t :=
  mk (id a) (user_id a) (name a) (description a) c (created_at a).
End Album.

Module AlbumPhoto.
Record t := mk { album_id : uuid; photo_id : uuid; added_at : timestamptz }.

#[global] Instance album_photo_eq_dec : EqDecision t.
Proof. solve_decision. Defined.

Definition key (r : t) : uuid * uuid := (album_id r, photo_id r).
End AlbumPhoto.

(** ** The database *)

Record database := Database {
  auth_users : list AuthUser.t;
  profiles : list Profile.t;
  photos : list Photo.t;
  albums : list Album.t;
  album_photos : list AlbumPhoto.t }.

Definition empty_database : database := Database [] [] [] [] [].

Definition with_auth_users (f : list AuthUser.t → list AuthUser.t) (db : database) : database :=
  Database (f (auth_users db)) (profiles db) (photos db) (albums db) (album_photos db).

Definition with_profiles (f : list Profile.t → list Profile.t) (db : database) : database :=
  Database (auth_users db) (f (profiles db)) (photos db) (albums db) (album_photos db).

Definition with_photos (f : list Photo.t → list Photo.t) (db : database) : database :=
  Database (auth_users db) (profiles db) (f (photos db)) (albums db) (album_photos db).

Definition with_albums (f : list Album.t → list Album.t) (db : database) : database :=
  Database (auth_users db) (profiles db) (photos db) (f (albums db)) (album_photos db).

Definition with_album_photos (f : list AlbumPhoto.t → list AlbumPhoto.t) (db : database) : database :=
  Database (auth_users db) (profiles db) (photos db) (albums db) (f (album_photos db)).

(** ** Errors and the error monad of a request *)

Inductive pg_error :=
  | unique_violation
  | foreign_key_violation
  | not_null_violation
  | rls_violation
  | not_a_single_row
  | request_failed.

Inductive result (A : Type) :=
  | Ok (a : A)
  | Err (e : pg_error).
Arguments Ok {A} a.
Arguments Err {A} e.

#[global] Instance result_ret : MRet result := λ A a, Ok a.

#[global] Instance result_bind : MBind result := λ A B k r,
  match r with
  | Ok a => k a
  | Err e => Err e
  end.

Fixpoint foldR {A S} (f : S → A → result S) (s : S) (l : list A) : result S :=
  match l with
  | [] => Ok s
  | a :: l => s' ← f s a; foldR f s' l
  end.

(** What lies outside the database and the page: the clock and the uuid
    generator behind the column defaults, whether a request reaches the
    database at all, what the blob store answers, and what the user answers
    to [confirm]. *)
Record env := Env {
  now : timestamptz;
  gen_random_uuid : uuid;
  db_reachable : bool;
  storage_remove_ok : bool;
  confirm : bool }.

(** A request either fails on the way ([error] set, nothing done) or is run
    by the database. *)
Definition request {A} (e : env) (q : result A) : result A :=
  if db_reachable e then q else Err request_failed.

(** ** Row-level security policies *)

(** [auth.uid() = user_id]; with no session [auth.uid()] is null and the
    comparison is not true. *)
Definition owns (auth_uid : option uuid) (user_id : uuid) : Prop :=
  auth_uid = Some user_id.

Definition photos_policy (auth_uid : option uuid) (p : Photo.t) : Prop :=
  owns auth_uid (Photo.user_id p).

Definition albums_policy (auth_uid : option uuid) (a : Album.t) : Prop :=
  owns auth_uid (Album.user_id a).

(** [exists (select 1 from albums where albums.id = album_photos.album_id
    and albums.user_id = auth.uid())], the one condition of the three
    policies on [album_photos]. *)
Definition album_photos_policy (auth_uid : option uuid) (db : database) (album_id : uuid) : Prop :=
  Exists (λ a, Album.id a = album_id ∧ owns auth_uid (Album.user_id a)) (albums db).

Definition profiles_select_policy (auth_uid : option uuid) (p : Profile.t) : Prop := True.

Definition profiles_write_policy (auth_uid : option uuid) (p : Profile.t) : Prop :=
  owns auth_uid (Profile.user_id p).

#[global] Instance owns_dec auth_uid user_id : Decision (owns auth_uid user_id).
Proof. unfold owns. apply _. Defined.

#[global] Instance photos_policy_dec auth_uid p : Decision (photos_policy auth_uid p).
Proof. unfold photos_policy. apply _. Defined.

#[global] Instance albums_policy_dec auth_uid a : Decision (albums_policy auth_uid a).
Proof. unfold albums_policy. apply _. Defined.

#[global] Instance album_photos_policy_dec auth_uid db album_id :
  Decision (album_photos_policy auth_uid db album_id).
Proof. unfold album_photos_policy. apply _. Defined.

#[global] Instance profiles_write_policy_dec auth_uid p : Decision (profiles_write_policy auth_uid p).
Proof. unfold profiles_write_policy. apply _. Defined.

(** ** [album_photos]: insert, delete *)

(** One row of [insert into album_photos (album_id, photo_id)]: the insert
    policy is checked first, then the primary key (album_id, photo_id);
    [added_at] takes its default [now()]. *)
Definition album_photos_insert_row (auth_uid : option uuid) (e : env)
    (db : database) (r : uuid * uuid) : result database :=
  if decide (album_photos_policy auth_uid db r.1) then
    if decide (r ∈ AlbumPhoto.key <$> album_photos db) then Err unique_violation
    else Ok (with_album_photos (λ t, t ++ [AlbumPhoto.mk r.1 r.2 (now e)]) db)
  else Err rls_violation.

(** The two foreign keys of a row, checked when the statement ends; the
    check does not go through row-level security. *)
Definition album_photos_fk (db : database) (r : uuid * uuid) : Prop :=
  r.1 ∈ Album.id <$> albums db ∧ r.2 ∈ Photo.id <$> photos db.

(** The whole statement: every row or none. *)
Definition album_photos_insert (auth_uid : option uuid) (e : env)
    (rows : list (uuid * uuid)) (db : database) : result database :=
  db' ← foldR (album_photos_insert_row auth_uid e) db rows;
  if decide (Forall (album_photos_fk db') rows) then Ok db' else Err foreign_key_violation.

(** [delete from album_photos where album_id = .. and photo_id = ..]: the
    rows the delete policy lets the caller see and that match; none
    matching is not an error. *)
Definition album_photos_delete (auth_uid : option uuid) (album_id photo_id : uuid)
    (db : database) : result database :=
  Ok (with_album_photos
        (filter (λ r, ¬ (album_photos_policy auth_uid db (AlbumPhoto.album_id r)
                         ∧ AlbumPhoto.album_id r = album_id
                         ∧ AlbumPhoto.photo_id r = photo_id))) db).

(** ** [photos]: insert, delete with its foreign-key actions *)

(** [insert into photos (user_id, url, title, description)]: [id] and
    [created_at] take their defaults; [url] is [not null]. *)
Definition photos_insert (auth_uid : option uuid) (e : env) (user_id : uuid)
    (url : option string) (title description : option string) (db : database) : result database :=
  if decide (owns auth_uid user_id) then
    match url with
    | None => Err not_null_violation
    | Some url =>
        if decide (gen_random_uuid e ∈ Photo.id <$> photos db) then Err unique_violation
        else if decide (user_id ∈ AuthUser.id <$> auth_users db) then
          Ok (with_photos
                (λ t, t ++ [Photo.mk (gen_random_uuid e) user_id url title description (now e)]) db)
        else Err foreign_key_violation
    end
  else Err rls_violation.

(** [cover_photo_id uuid references photos(id) on delete set null]. *)
Definition set_null_cover (gone : list uuid) (a : Album.t) : Album.t :=
  match Album.cover_photo_id a with
  | Some c =>
      if decide (c ∈ gone) then Album.set_cover_photo_id None a else a
  | None => a
  end.

(** [delete from photos where id = photo_id]. The rows deleted are those the
    delete policy shows to the caller; deleting none is not an error. The
    membership rows of a deleted photo go with it ([on delete cascade]) and
    an album cover that points at it is cleared ([on delete set null]). *)
Definition photos_delete (auth_uid : option uuid) (photo_id : uuid) (db : database) : result database :=
  let doomed p := photos_policy auth_uid p ∧ Photo.id p = photo_id in
  let gone := Photo.id <$> filter doomed (photos db) in
  Ok (Database (auth_users db) (profiles db)
        (filter (λ p, ¬ doomed p) (photos db))
        (set_null_cover gone <$> albums db)
        (filter (λ r, AlbumPhoto.photo_id r ∉ gone) (album_photos db))).

(** ** [albums]: insert, update, delete with its foreign-key action *)

(** [cover_photo_id uuid references photos(id)]: null, or the id of a
    photo. *)
Definition cover_references_photo (db : database) (a : Album.t) : Prop :=
  match Album.cover_photo_id a with
  | Some c => c ∈ Photo.id <$> photos db
  | None => True
  end.

#[global] Instance cover_references_photo_dec db a : Decision (cover_references_photo db a).
Proof. unfold cover_references_photo. destruct (Album.cover_photo_id a); apply _. Defined.

(** [insert into albums (user_id, name, description)]: [name] is
    [not null]; there is no other check on it. *)
Definition albums_insert (auth_uid : option uuid) (e : env) (user_id : uuid)
    (name : option string) (description : option string) (db : database) : result database :=
  if decide (owns auth_uid user_id) then
    match name with
    | None => Err not_null_violation
    | Some name =>
        if decide (gen_random_uuid e ∈ Album.id <$> albums db) then Err unique_violation
        else if decide (user_id ∈ AuthUser.id <$> auth_users db) then
          Ok (with_albums
                (λ t, t ++ [Album.mk (gen_random_uuid e) user_id name description None (now e)]) db)
        else Err foreign_key_violation
    end
  else Err rls_violation.

(** [delete from albums where id = album_id]; the membership rows of a
    deleted album go with it ([on delete cascade]). *)
Definition albums_delete (auth_uid : option uuid) (album_id : uuid) (db : database) : result database :=
  let doomed a := albums_policy auth_uid a ∧ Album.id a = album_id in
  let gone := Album.id <$> filter doomed (albums db) in
  Ok (Database (auth_users db) (profiles db) (photos db)
        (filter (λ a, ¬ doomed a) (albums db))
        (filter (λ r, AlbumPhoto.album_id r ∉ gone) (album_photos db))).

(** [update albums set cover_photo_id = cover where id = album_id] on the
    rows the update policy shows to the caller. No page sends it; the policy
    "Users can update own albums" admits it, and it is how a cover comes to
    be set. The foreign key is checked on the rows that change. *)
Definition albums_update_cover (auth_uid : option uuid) (album_id : uuid) (cover : option uuid)
    (db : database) : result database :=
  let hit a := albums_policy auth_uid a ∧ Album.id a = album_id in
  if decide (Forall (λ a, hit a → cover_references_photo db (Album.set_cover_photo_id cover a))
               (albums db))
  then Ok (with_albums
             (fmap (λ a, if decide (hit a) then Album.set_cover_photo_id cover a else a)) db)
  else Err foreign_key_violation.

(** ** [profiles] and the signup trigger *)

(** [insert into profiles (user_id, display_name, avatar_url)] by a caller.
    No page sends it; the policy "Users can insert own profile" admits it,
    and the [unique] on [user_id] refuses a second row for a user. *)
Definition profiles_insert (auth_uid : option uuid) (e : env) (user_id : uuid)
    (display_name avatar_url : option string) (db : database) : result database :=
  if decide (profiles_write_policy auth_uid
               (Profile.mk (gen_random_uuid e) user_id display_name avatar_url (now e))) then
    if decide (gen_random_uuid e ∈ Profile.id <$> profiles db) then Err unique_violation
    else if decide (user_id ∈ Profile.user_id <$> profiles db) then Err unique_violation
    else if decide (user_id ∈ AuthUser.id <$> auth_users db) then
      Ok (with_profiles
            (λ t, t ++ [Profile.mk (gen_random_uuid e) user_id display_name avatar_url (now e)]) db)
    else Err foreign_key_violation
  else Err rls_violation.

(** [update profiles set ... where user_id = ..] on the rows the update
    policy shows to the caller. *)
Definition profiles_update (auth_uid : option uuid) (user_id : uuid)
    (set : Profile.t → Profile.t) (db : database) : result database :=
  Ok (with_profiles
        (fmap (λ p, if decide (profiles_write_policy auth_uid p ∧ Profile.user_id p = user_id)
                    then set p else p)) db).

(** [handle_new_user]: [insert into profiles (user_id, display_name) values
    (new.id, new.email)]. The function is [security definer], so no policy
    applies; the primary key, the [unique] on [user_id] and the foreign key
    to [auth.users] do. *)
Definition handle_new_user (new : AuthUser.t) (e : env) (db : database) : result database :=
  if decide (gen_random_uuid e ∈ Profile.id <$> profiles db) then Err unique_violation
  else if decide (AuthUser.id new ∈ Profile.user_id <$> profiles db) then Err unique_violation
  else if decide (AuthUser.id new ∈ AuthUser.id <$> auth_users db) then
    Ok (with_profiles
          (λ t, t ++ [Profile.mk (gen_random_uuid e) (AuthUser.id new) (AuthUser.email new)
                        None (now e)]) db)
  else Err foreign_key_violation.

(** Account creation: the row goes into [auth.users] and the trigger
    [on_auth_user_created] runs [after insert ... for each row] in the same
    transaction, so that a failure of the trigger undoes the insert. *)
Definition auth_users_insert (new : AuthUser.t) (e : env) (db : database) : result database :=
  if decide (AuthUser.id new ∈ AuthUser.id <$> auth_users db) then Err unique_violation
  else handle_new_user new e (with_auth_users (λ t, t ++ [new]) db).

(** Modelled from the spec: the sign-in of the auth provider, which is not
    among the sources (section 4.2: re-authentication of an existing user
    creates no profile). Signing in with an account that exists gives a
    session for it; no row is inserted into [auth.users], so the trigger,
    which runs [after insert on auth.users], does not run. *)
Definition auth_sign_in (id : uuid) (db : database) : option uuid * database :=
  (if decide (id ∈ AuthUser.id <$> auth_users db) then Some id else None, db).

(** ** Reading: what a [select] returns to a caller *)

Definition photos_select (auth_uid : option uuid) (db : database) : list Photo.t :=
  filter (photos_policy auth_uid) (photos db).

Definition albums_select (auth_uid : option uuid) (db : database) : list Album.t :=
  filter (albums_policy auth_uid) (albums db).

Definition album_photos_select (auth_uid : option uuid) (db : database) : list AlbumPhoto.t :=
  filter (λ r, album_photos_policy auth_uid db (AlbumPhoto.album_id r)) (album_photos db).

Definition profiles_select (auth_uid : option uuid) (db : database) : list Profile.t :=
  filter (profiles_select_policy auth_uid) (profiles db).

(** The embedded resource [photos(...)] of an [album_photos] row: the photo
    its [photo_id] refers to, or null when the caller may not see it. *)
Definition embedded_photo (auth_uid : option uuid) (db : database) (r : AlbumPhoto.t) : option Photo.t :=
  head (filter (λ p, Photo.id p = AlbumPhoto.photo_id r) (photos_select auth_uid db)).

(** [.single()] *)
Definition single {A} (rows : list A) : result A :=
  match rows with
  | [a] => Ok a
  | _ => Err not_a_single_row
  end.

(** [.order("created_at", { ascending: false })] *)
Definition newest_first {A} (created_at : A → timestamptz) : relation A :=
  λ x y, created_at y ≤ created_at x.

#[global] Instance newest_first_dec {A} (f : A → timestamptz) x y : Decision (newest_first f x y).
Proof. unfold newest_first. apply _. Defined.

(** [s || null] *)
Definition or_null (s : string) : option string :=
  if decide (s = "") then None else Some s.

(** What a handler shows when it is done. *)
Inductive toast :=
  | toast_error (title : string) (error : pg_error)
  | toast_info (title : string)
  | no_toast.

(** ** Blob store: the bucket [photos] *)

(** [(storage.foldername(name))[1]]: the first folder of an object name,
    null when the name has no folder. *)
Definition foldername_1 (name : string) : option string :=
  i ← String.index 0 "/" name; Some (String.substring 0 i name).

(** The policies on [storage.objects] for insert, update and delete:
    [auth.uid()::text = (storage.foldername(name))[1]]. *)
Definition storage_write_policy (auth_uid : option uuid) (name : string) : Prop :=
  is_Some auth_uid ∧ foldername_1 name = auth_uid.

#[global] Instance storage_write_policy_dec auth_uid name : Decision (storage_write_policy auth_uid name).
Proof. unfold storage_write_policy. apply _. Defined.

(** [storage.from("photos").remove(paths)]: the answer and the bucket
    afterwards. Objects the caller may not delete are left in place. *)
Definition storage_remove (auth_uid : option uuid) (e : env) (paths : list (option string))
    (bucket : list string) : result (list string) * list string :=
  if storage_remove_ok e then
    let removable name := Some name ∈ paths ∧ storage_write_policy auth_uid name in
    (Ok (filter removable bucket), filter (λ name, ¬ removable name) bucket)
  else (Err request_failed, bucket).

(** [s.split(sep)[1]] for a non-empty [sep]: what lies between the first
    and the second occurrence of [sep], undefined when [sep] does not
    occur. *)
Definition split_1 (sep s : string) : option string :=
  i ← String.index 0 sep s;
  let rest := String.substring (i + String.length sep)
                (String.length s - (i + String.length sep)) s in
  Some match String.index 0 sep rest with
       | Some j => String.substring 0 j rest
       | None => rest
       end.

(** What lies outside an upload: the clock of the browser ([Date.now()]),
    the address of the storage service the client was made with, and
    whether the upload request gets through. *)
Record upload_env := UploadEnv {
  date_now : N;
  storage_url : string;
  storage_upload_ok : bool }.

(** [storage.from("photos").upload(name, file, { upsert })]: the answer and
    the bucket afterwards. The name has to pass the insert policy; a name
    that is there already is an error unless [upsert] is set, in which case
    the object is replaced under the same name. *)
Definition storage_upload (auth_uid : option uuid) (ue : upload_env) (upsert : bool)
    (name : string) (bucket : list string) : result string * list string :=
  if storage_upload_ok ue then
    if decide (storage_write_policy auth_uid name) then
      if decide (name ∈ bucket) then
        if upsert then (Ok name, bucket) else (Err unique_violation, bucket)
      else (Ok name, bucket ++ [name])
    else (Err rls_violation, bucket)
  else (Err request_failed, bucket).

(** [storage.from("photos").getPublicUrl(name)]: the public address of an
    object of the bucket. *)
Definition getPublicUrl (ue : upload_env) (name : string) : string :=
  storage_url ue +:+ "/object/public/photos/" +:+ name.

(** What follows the last [c] in [s], when [c] occurs in [s]. *)
Fixpoint after_last (c : Ascii.ascii) (s : string) : option string :=
  match s with
  | EmptyString => None
  | String x s' =>
      match after_last c s' with
      | Some r => Some r
      | None => if decide (x = c) then Some s' else None
      end
  end.

(** [name.split(".").pop()]: what follows the last dot, the whole name when
    it has no dot. *)
Definition file_ext (name : string) : string :=
  default name (after_last "."%char name).

(** ** Page [Home] *)

Module Home.

Definition loadPhotos (e : env) (auth_uid : option uuid) (userId : uuid) (db : database) : result (list Photo.t) :=
  request e (Ok (merge_sort (newest_first Photo.created_at)
                   (filter (λ p, Photo.user_id p = userId) (photos_select auth_uid db)))).

(** [handleDelete(photoId, photoUrl)]. The answer of the blob store is
    awaited and dropped. *)
Definition handleDelete (e : env) (auth_uid : option uuid) (photoId : uuid) (photoUrl : string)
    (db : database) (bucket : list string) : toast * database * list string :=
  if confirm e then
    let path := split_1 "/photos/" photoUrl in
    let bucket' := (storage_remove auth_uid e [path] bucket).2 in
    match request e (photos_delete auth_uid photoId db) with
    | Err error => (toast_error "Erro ao excluir foto" error, db, bucket')
    | Ok db' => (toast_info "Foto excluída", db', bucket')
    end
  else (no_toast, db, bucket).

(** [handleUpload]: the file goes into the bucket under the folder of the
    user, then the row with its public address goes into [photos]. Nothing
    is done without a file or a user; the row is not inserted when the
    upload fails; the object stays when the insert fails. *)
Definition handleUpload (e : env) (ue : upload_env) (auth_uid : option uuid) (user : option uuid)
    (selectedFile : option string) (title description : string)
    (db : database) (bucket : list string) : toast * database * list string :=
  match selectedFile, user with
  | Some name, Some user_id =>
      let fileExt := file_ext name in
      let fileName := user_id +:+ "/" +:+ pretty (date_now ue) +:+ "." +:+ fileExt in
      match storage_upload auth_uid ue false fileName bucket with
      | (Err uploadError, bucket') => (toast_error "Erro ao fazer upload" uploadError, db, bucket')
      | (Ok _, bucket') =>
          let publicUrl := getPublicUrl ue fileName in
          match request e (photos_insert auth_uid e user_id (Some publicUrl)
                             (or_null title) (or_null description) db) with
          | Err dbError => (toast_error "Erro ao salvar foto" dbError, db, bucket')
          | Ok db' => (toast_info "Foto adicionada!", db', bucket')
          end
      end
  | _, _ => (no_toast, db, bucket)
  end.

End Home.

(** ** Page [Albums] *)

Module Albums.

(** An album as the page holds it: the row and [photos], the urls of the
    embedded [album_photos(photos(url))] that are not null. *)
Record Album := mkAlbum { row : Album.t; photos : list string }.

Definition embedded_urls (auth_uid : option uuid) (db : database) (a : Album.t) : list string :=
  omap (λ r, Photo.url <$> embedded_photo auth_uid db r)
    (filter (λ r, AlbumPhoto.album_id r = Album.id a) (album_photos_select auth_uid db)).

Definition loadAlbums (e : env) (auth_uid : option uuid) (userId : uuid) (db : database) : result (list Album) :=
  match request e (Ok (merge_sort (newest_first Album.created_at)
                         (filter (λ a, Album.user_id a = userId) (albums_select auth_uid db)))) with
  | Err error => Err error
  | Ok data => Ok ((λ album, mkAlbum album (embedded_urls auth_uid db album)) <$> data)
  end.

(** The image of an album card: [album.photos[0].url] when there is one. *)
Definition cover (album : Album) : option string := head (photos album).

(** The count of an album card: [album.photos?.length || 0]. *)
Definition count (album : Album) : nat := length (photos album).

(** [handleCreate]: the fields of the form go into the insert as they are. *)
Definition handleCreate (e : env) (auth_uid : option uuid) (user : option uuid)
    (name description : string) (db : database) : toast * database :=
  match user with
  | None => (no_toast, db)
  | Some user_id =>
      match request e (albums_insert auth_uid e user_id (Some name) (or_null description) db) with
      | Err error => (toast_error "Erro ao criar álbum" error, db)
      | Ok db' => (toast_info "Álbum criado!", db')
      end
  end.

(** Submitting the form: its name input is [required], and a form with an
    empty required input is not submitted, so [handleCreate] does not
    run. *)
Definition submit (e : env) (auth_uid : option uuid) (user : option uuid)
    (name description : string) (db : database) : toast * database :=
  if decide (name = "") then (no_toast, db)
  else handleCreate e auth_uid user name description db.

Definition handleDelete (e : env) (auth_uid : option uuid) (albumId : uuid)
    (db : database) : toast * database :=
  if confirm e then
    match request e (albums_delete auth_uid albumId db) with
    | Err error => (toast_error "Erro ao excluir álbum" error, db)
    | Ok db' => (toast_info "Álbum excluído", db')
    end
  else (no_toast, db).

End Albums.

(** ** Page [AlbumDetail] *)

Module AlbumDetail.

(** A photo as the page holds it: the columns [id, url, title]. *)
Record Photo := mkPhoto { id : uuid; url : string; title : option string }.

Definition columns (p : Photo.t) : Photo :=
  mkPhoto (Photo.id p) (Photo.url p) (Photo.title p).

(** What [loadAlbumData] puts into the state of the page. *)
Record state := mkState {
  album : Album.t;
  albumPhotos : list Photo;
  availablePhotos : list Photo }.

(** [photosData?.map((ap) => ap.photos).filter(Boolean) || []] over
    [album_photos.select("photos(id, url, title)").eq("album_id", id)]. *)
Definition listAlbumPhotos (e : env) (auth_uid : option uuid) (id : uuid) (db : database) : list Photo :=
  match request e (Ok (filter (λ r, AlbumPhoto.album_id r = id) (album_photos_select auth_uid db))) with
  | Ok photosData => omap (λ ap, columns <$> embedded_photo auth_uid db ap) photosData
  | Err _ => []
  end.

(** [allPhotos?.filter((p) => !photosInAlbum.has(p.id)) || []] over
    [photos.select("id, url, title").eq("user_id", userId)]. *)
Definition listAvailablePhotos (e : env) (auth_uid : option uuid) (userId : uuid)
    (photos : list Photo) (db : database) : list Photo :=
  match request e (Ok (columns <$> filter (λ p, Photo.user_id p = userId) (photos_select auth_uid db))) with
  | Ok allPhotos =>
      let photosInAlbum : gset uuid := list_to_set (id <$> photos) in
      filter (λ p, id p ∉ photosInAlbum) allPhotos
  | Err _ => []
  end.

(** [loadAlbumData(userId)]: nothing without the route parameter [id]; an
    error (and a way back to the list of albums) unless exactly one album
    with that id belongs to [userId] and is visible to the caller. *)
Definition loadAlbumData (e : env) (auth_uid : option uuid) (id : option uuid) (userId : uuid)
    (db : database) : option (result state) :=
  id ← id;
  Some match request e (single (filter (λ a, Album.id a = id ∧ Album.user_id a = userId)
                                  (albums_select auth_uid db))) with
       | Err albumError => Err albumError
       | Ok albumData =>
           let photos := listAlbumPhotos e auth_uid id db in
           Ok (mkState albumData photos (listAvailablePhotos e auth_uid userId photos db))
       end.

(** [handleAddPhotos]: one plain [insert] of a row per selected photo. *)
Definition handleAddPhotos (e : env) (auth_uid : option uuid) (id : option uuid)
    (selectedPhotos : list uuid) (db : database) : toast * database :=
  match id, selectedPhotos with
  | None, _ | _, [] => (no_toast, db)
  | Some id, _ =>
      let inserts := (λ photoId, (id, photoId)) <$> selectedPhotos in
      match request e (album_photos_insert auth_uid e inserts db) with
      | Err error => (toast_error "Erro ao adicionar fotos" error, db)
      | Ok db' => (toast_info "Fotos adicionadas!", db')
      end
  end.

Definition handleRemovePhoto (e : env) (auth_uid : option uuid) (id : option uuid)
    (photoId : uuid) (db : database) : toast * database :=
  match id with
  | None => (no_toast, db)
  | Some id =>
      match request e (album_photos_delete auth_uid id photoId db) with
      | Err error => (toast_error "Erro ao remover foto" error, db)
      | Ok db' => (toast_info "Foto removida", db')
      end
  end.


End AlbumDetail.

(** ** Page [Profile] *)

Module ProfilePage.

(** [loadProfile]: the two fields of the form, empty where the row has
    null; nothing is set when there is no single row. *)
Definition loadProfile (e : env) (auth_uid : option uuid) (userId : uuid) (db : database) : option (string * string) :=
  match request e (single (filter (λ p, Profile.user_id p = userId) (profiles_select auth_uid db))) with
  | Ok data => Some (default "" (Profile.display_name data), default "" (Profile.avatar_url data))
  | Err _ => None
  end.

Definition set_fields (displayName avatarUrl : string) (p : Profile.t) : Profile.t :=
  Profile.mk (Profile.id p) (Profile.user_id p) (or_null displayName) (or_null avatarUrl)
    (Profile.created_at p).

(** The update at the end of [handleAvatarUpload]: [{ avatar_url: publicUrl }]. *)
Definition set_avatar_url (publicUrl : string) (p : Profile.t) : Profile.t :=
  Profile.mk (Profile.id p) (Profile.user_id p) (Profile.display_name p) (Some publicUrl)
    (Profile.created_at p).

Definition handleSave (e : env) (auth_uid : option uuid) (user : option uuid)
    (displayName avatarUrl : string) (db : database) : toast * database :=
  match user with
  | None => (no_toast, db)
  | Some user_id =>
      match request e (profiles_update auth_uid user_id (set_fields displayName avatarUrl) db) with
      | Err error => (toast_error "Erro ao salvar perfil" error, db)
      | Ok db' => (toast_info "Perfil atualizado!", db')
      end
  end.

(** [handleAvatarUpload]: the file replaces the avatar object of the user
    in the bucket ([upsert]), then its public address goes into the profile
    of the user. Returned with the message are the database, the bucket and
    the address the form now holds, if it was set. *)
Definition handleAvatarUpload (e : env) (ue : upload_env) (auth_uid : option uuid)
    (user : option uuid) (file : option string) (db : database) (bucket : list string)
    : toast * database * list string * option string :=
  match file, user with
  | Some name, Some user_id =>
      let fileExt := file_ext name in
      let fileName := user_id +:+ "/avatar." +:+ fileExt in
      match storage_upload auth_uid ue true fileName bucket with
      | (Err uploadError, bucket') =>
          (toast_error "Erro ao fazer upload" uploadError, db, bucket', None)
      | (Ok _, bucket') =>
          let publicUrl := getPublicUrl ue fileName in
          match request e (profiles_update auth_uid user_id (set_avatar_url publicUrl) db) with
          | Err updateError =>
              (toast_error "Erro ao atualizar avatar" updateError, db, bucket', Some publicUrl)
          | Ok db' => (toast_info "Avatar atualizado!", db', bucket', Some publicUrl)
          end
      end
  | _, _ => (no_toast, db, bucket, None)
  end.

End ProfilePage.

(** ** The constraints of the schema *)

(** The primary keys, the [unique] on [profiles.user_id] and the foreign
    keys of the five tables, as a property of a database. *)
Record schema_ok (db : database) : Prop := SchemaOk {
  auth_users_pkey : NoDup (AuthUser.id <$> auth_users db);
  profiles_pkey : NoDup (Profile.id <$> profiles db);
  profiles_user_id_key : NoDup (Profile.user_id <$> profiles db);
  profiles_user_id_fkey :
    Forall (λ p, Profile.user_id p ∈ AuthUser.id <$> auth_users db) (profiles db);
  photos_pkey : NoDup (Photo.id <$> photos db);
  photos_user_id_fkey :
    Forall (λ p, Photo.user_id p ∈ AuthUser.id <$> auth_users db) (photos db);
  albums_pkey : NoDup (Album.id <$> albums db);
  albums_user_id_fkey :
    Forall (λ a, Album.user_id a ∈ AuthUser.id <$> auth_users db) (albums db);
  albums_cover_photo_id_fkey : Forall (cover_references_photo db) (albums db);
  album_photos_pkey : NoDup (AlbumPhoto.key <$> album_photos db);
  album_photos_album_id_fkey :
    Forall (λ r, AlbumPhoto.album_id r ∈ Album.id <$> albums db) (album_photos db);
  album_photos_photo_id_fkey :
    Forall (λ r, AlbumPhoto.photo_id r ∈ Photo.id <$> photos db) (album_photos db) }.

(** The same, as a check that can be run on a given database. *)
Definition schema_check (db : database) : bool :=
  bool_decide (NoDup (AuthUser.id <$> auth_users db))
  && bool_decide (NoDup (Profile.id <$> profiles db))
  && bool_decide (NoDup (Profile.user_id <$> profiles db))
  && bool_decide (Forall (λ p, Profile.user_id p ∈ AuthUser.id <$> auth_users db) (profiles db))
  && bool_decide (NoDup (Photo.id <$> photos db))
  && bool_decide (Forall (λ p, Photo.user_id p ∈ AuthUser.id <$> auth_users db) (photos db))
  && bool_decide (NoDup (Album.id <$> albums db))
  && bool_decide (Forall (λ a, Album.user_id a ∈ AuthUser.id <$> auth_users db) (albums db))
  && bool_decide (Forall (cover_references_photo db) (albums db))
  && bool_decide (NoDup (AlbumPhoto.key <$> album_photos db))
  && bool_decide (Forall (λ r, AlbumPhoto.album_id r ∈ Album.id <$> albums db) (album_photos db))
  && bool_decide (Forall (λ r, AlbumPhoto.photo_id r ∈ Photo.id <$> photos db) (album_photos db)).

(** ** The statements the pages and the auth provider send *)

Inductive statement :=
  | insert_auth_users (new : AuthUser.t)
  | insert_profiles (user_id : uuid) (display_name avatar_url : option string)
  | update_profiles_fields (user_id : uuid) (displayName avatarUrl : string)
  | update_profiles_avatar (user_id : uuid) (publicUrl : string)
  | insert_photos (user_id : uuid) (url title description : option string)
  | delete_photos (photo_id : uuid)
  | insert_albums (user_id : uuid) (name description : option string)
  | update_albums_cover (album_id : uuid) (cover : option uuid)
  | delete_albums (album_id : uuid)
  | insert_album_photos (rows : list (uuid * uuid))
  | delete_album_photos (album_id photo_id : uuid).

Definition execute (auth_uid : option uuid) (e : env) (s : statement) (db : database) : result database :=
  match s with
  | insert_auth_users new => auth_users_insert new e db
  | insert_profiles user_id display_name avatar_url =>
      profiles_insert auth_uid e user_id display_name avatar_url db
  | update_profiles_fields user_id displayName avatarUrl =>
      profiles_update auth_uid user_id (ProfilePage.set_fields displayName avatarUrl) db
  | update_profiles_avatar user_id publicUrl =>
      profiles_update auth_uid user_id (ProfilePage.set_avatar_url publicUrl) db
  | insert_photos user_id url title description =>
      photos_insert auth_uid e user_id url title description db
  | delete_photos photo_id => photos_delete auth_uid photo_id db
  | insert_albums user_id name description => albums_insert auth_uid e user_id name description db
  | update_albums_cover album_id cover => albums_update_cover auth_uid album_id cover db
  | delete_albums album_id => albums_delete auth_uid album_id db
  | insert_album_photos rows => album_photos_insert auth_uid e rows db
  | delete_album_photos album_id photo_id => album_photos_delete auth_uid album_id photo_id db
  end.

(** A statement that fails leaves the database as it was. *)
Definition apply_statement (db : database) (c : option uuid * env * statement) : database :=
  match request c.1.2 (execute c.1.1 c.1.2 c.2 db) with
  | Ok db' => db'
  | Err _ => db
  end.

Definition run (log : list (option uuid * env * statement)) (db : database) : database :=
  foldl apply_statement db log.

(** ** Names for what the properties speak of *)

(** All the photos of a user, in the columns of the page. *)
Definition photos_owned_by (owner : uuid) (db : database) : list AlbumDetail.Photo :=
  AlbumDetail.columns <$> filter (λ p, Photo.user_id p = owner) (photos db).

(** The rows a successful [handleAddPhotos] appends. *)
Definition new_album_photos (e : env) (album_id : uuid) (photoIds : list uuid) : list AlbumPhoto.t :=
  (λ photoId, AlbumPhoto.mk album_id photoId (now e)) <$> photoIds.

(** The same outside world, but for what the blob store answers. *)
Definition with_storage_remove_ok (ok : bool) (e : env) : env :=
  Env (now e) (gen_random_uuid e) (db_reachable e) ok (confirm e).

(** The same membership rows with other times of adding. *)
Definition with_added_at (f : AlbumPhoto.t → timestamptz) (db : database) : database :=
  with_album_photos
    (fmap (λ r, AlbumPhoto.mk (AlbumPhoto.album_id r) (AlbumPhoto.photo_id r) (f r))) db.

(** The same albums with other covers. *)
Definition with_covers (f : Album.t → option uuid) (db : database) : database :=
  with_albums (fmap (λ a, Album.set_cover_photo_id (f a) a)) db.

(** ** The wording of the specification, to compare with

    Two definitions that follow the specification where the pages do
    otherwise. *)

Module Spec.

(** The listing of the members of an album as the specification words it:
    the membership rows most recently added first. *)
Definition listAlbumPhotos (e : env) (auth_uid : option uuid) (id : uuid) (db : database) : list AlbumDetail.Photo :=
  match request e (Ok (merge_sort (newest_first AlbumPhoto.added_at)
                         (filter (λ r, AlbumPhoto.album_id r = id)
                            (album_photos_select auth_uid db)))) with
  | Ok photosData => omap (λ ap, AlbumDetail.columns <$> embedded_photo auth_uid db ap) photosData
  | Err _ => []
  end.

(** The cover of an album as the specification words it: the photo
    [cover_photo_id] refers to when it is set and that photo is a member,
    else the member added most recently, else none. *)
Definition cover (auth_uid : option uuid) (db : database) (a : Album.t) : option string :=
  let members := filter (λ r, AlbumPhoto.album_id r = Album.id a) (album_photos_select auth_uid db) in
  let url_of (photo_id : uuid) :=
    Photo.url <$> head (filter (λ p, Photo.id p = photo_id) (photos_select auth_uid db)) in
  let most_recent :=
    r ← head (merge_sort (newest_first AlbumPhoto.added_at) members);
    url_of (AlbumPhoto.photo_id r) in
  match Album.cover_photo_id a with
  | Some c => if decide (c ∈ AlbumPhoto.photo_id <$> members) then url_of c else most_recent
  | None => most_recent
  end.

End Spec.

(** ** A small database to run the handlers on

    Two users; [u1] has three photos and the album [A], [u2] has one photo
    and the album [B]. *)

Module Scenario.

Definition env_at (t : timestamptz) (fresh : uuid) : env := Env t fresh true true true.

Definition p1 : Photo.t := Photo.mk "p1" "u1" "https://h/storage/v1/object/public/photos/u1/1.png" None None 1.
Definition p2 : Photo.t := Photo.mk "p2" "u1" "https://h/storage/v1/object/public/photos/u1/2.png" (Some "two") None 2.
Definition p3 : Photo.t := Photo.mk "p3" "u1" "https://h/storage/v1/object/public/photos/u1/3.png" None None 3.
Definition q1 : Photo.t := Photo.mk "q1" "u2" "https://h/storage/v1/object/public/photos/u2/1.png" None None 4.

Definition album_A : Album.t := Album.mk "A" "u1" "Trip" None None 5.
Definition album_B : Album.t := Album.mk "B" "u2" "Home" None None 6.

Definition db0 : database :=
  Database [AuthUser.mk "u1" (Some "u1@example.org"); AuthUser.mk "u2" None]
    [Profile.mk "r1" "u1" (Some "u1@example.org") None 0; Profile.mk "r2" "u2" None None 0]
    [p1; p2; p3; q1] [album_A; album_B] [].

(** [u1] adds [p1] and [p2] to [A] at time 10. *)
Definition db1 : database :=
  (AlbumDetail.handleAddPhotos (env_at 10 "g1") (Some "u1") (Some "A") ["p1"; "p2"] db0).2.

(** Then [p3] at time 20. *)
Definition db2 : database :=
  (AlbumDetail.handleAddPhotos (env_at 20 "g2") (Some "u1") (Some "A") ["p3"] db1).2.

(** Then [u1] makes [p3] the cover of [A]. *)
Definition db2_cover : database :=
  apply_statement db2 (Some "u1", env_at 25 "g3", update_albums_cover "A" (Some "p3")).

(** The objects behind the four photos. *)
Definition bucket0 : list string := ["u1/1.png"; "u1/2.png"; "u1/3.png"; "u2/1.png"].

(** An upload at a time of the browser, to the storage service behind the
    addresses of the four photos. *)
Definition upload_at (t : N) (ok : bool) : upload_env := UploadEnv t "https://h/storage/v1" ok.

(** From the empty database: [u1] signs up, creates the album "Trip",
    uploads a photo and adds it to the album. *)
Definition trip_url : string := "https://h/storage/v1/object/public/photos/u1/3.png".

Definition trip0 : database :=
  run [(None, env_at 1 "r1", insert_auth_users (AuthUser.mk "u1" (Some "u1@example.org")))]
    empty_database.

Definition trip1 : database :=
  (Albums.submit (env_at 2 "T") (Some "u1") (Some "u1") "Trip" "" trip0).2.

Definition trip2 : database :=
  apply_statement trip1 (Some "u1", env_at 3 "P1", insert_photos "u1" (Some trip_url) None None).

Definition trip3 : database :=
  (AlbumDetail.handleAddPhotos (env_at 4 "g") (Some "u1") (Some "T") ["P1"] trip2).2.

(** The ids the page of album "T" lists and offers to [u1]. *)
Definition trip_page (db : database) : option (list uuid * list uuid) :=
  match AlbumDetail.loadAlbumData (env_at 6 "g") (Some "u1") (Some "T") "u1" db with
  | Some (Ok st) =>
      Some (AlbumDetail.id <$> AlbumDetail.albumPhotos st,
            AlbumDetail.id <$> AlbumDetail.availablePhotos st)
  | _ => None
  end.

Definition trip4 : database :=
  (Home.handleDelete (env_at 5 "g") (Some "u1") "P1" trip_url trip3 ["u1/3.png"]).1.2.

End Scenario.

(** * Properties *)

(** Decidable facts about a given database are settled by running their
    decision procedure. *)
Ltac by_computation := apply (bool_decide_unpack _); vm_compute; exact I.

Lemma schema_check_ok db : schema_check db = true → schema_ok db.
Proof.
  unfold schema_check. rewrite !andb_true_iff, !bool_decide_eq_true.
  intros [[[[[[[[[[[? ?] ?] ?] ?] ?] ?] ?] ?] ?] ?] ?]. by split.
Qed.

#[global] Instance newest_first_total {A} (f : A → timestamptz) : Total (newest_first f).
Proof. intros x y. unfold newest_first. lia. Qed.

#[global] Instance newest_first_trans {A} (f : A → timestamptz) : Transitive (newest_first f).
Proof. intros x y z. unfold newest_first. lia. Qed.

(** ** Lemmas on lists of rows *)

Section rows.
Context {A K : Type} `{EqDecision K} (key : A → K).

(** Under a key, the rows with a given key value are at most one. *)
Lemma key_inj (l : list A) (x y : A) :
  NoDup (key <$> l) → x ∈ l → y ∈ l → key x = key y → x = y.
Proof.
  induction l as [|a l IH]; simpl; [by intros _ ?%elem_of_nil|].
  rewrite NoDup_cons. intros [Ha Hl] Hx Hy Hk.
  apply elem_of_cons in Hx as [->|Hx]; apply elem_of_cons in Hy as [->|Hy]; auto.
  - destruct Ha. rewrite Hk. by apply list_elem_of_fmap_2.
  - destruct Ha. rewrite <- Hk. by apply list_elem_of_fmap_2.
Qed.

Lemma filter_key_absent (P : A → Prop) `{∀ x, Decision (P x)} (l : list A) (k : K) :
  k ∉ key <$> l → filter (λ x, key x = k ∧ P x) l = [].
Proof.
  intros Hk. induction l as [|a l IH]; [done|].
  rewrite fmap_cons, not_elem_of_cons in Hk. destruct Hk as [Hne Hk].
  rewrite filter_cons_False by (by intros [? _]). auto.
Qed.

(** Selecting by key value finds the row that has it, and only it. *)
Lemma filter_key (P : A → Prop) `{∀ x, Decision (P x)} (l : list A) (a : A) :
  NoDup (key <$> l) → a ∈ l → P a → filter (λ x, key x = key a ∧ P x) l = [a].
Proof.
  induction l as [|b l IH]; simpl; [by intros _ ?%elem_of_nil|].
  rewrite NoDup_cons. intros [Hb Hl] Ha HP.
  apply elem_of_cons in Ha as [->|Ha].
  - rewrite filter_cons_True by done. f_equal. by apply filter_key_absent.
  - rewrite filter_cons_False; [by apply IH|].
    intros [Hk _]. destruct Hb. rewrite Hk. by apply list_elem_of_fmap_2.
Qed.

Lemma filter_all (P : A → Prop) `{∀ x, Decision (P x)} (l : list A) :
  Forall P l → filter P l = l.
Proof.
  induction 1 as [|a l Ha Hl IH]; [done|]. rewrite filter_cons_True by done. by f_equal.
Qed.

Lemma filter_none (P : A → Prop) `{∀ x, Decision (P x)} (l : list A) :
  Forall (λ x, ¬ P x) l → filter P l = [].
Proof.
  induction 1 as [|a l Ha Hl IH]; [done|]. by rewrite filter_cons_False.
Qed.

Lemma filter_equiv (P Q : A → Prop) `{∀ x, Decision (P x)} `{∀ x, Decision (Q x)} (l : list A) :
  (∀ x, x ∈ l → P x ↔ Q x) → filter P l = filter Q l.
Proof.
  induction l as [|a l IH]; [done|]. intros HPQ.
  rewrite !filter_cons.
  rewrite IH by (intros; apply HPQ; by right).
  destruct (decide (P a)) as [Ha|Ha], (decide (Q a)) as [Hb|Hb]; try done.
  - destruct Hb. apply HPQ; [left|done].
  - destruct Ha. apply HPQ; [left|done].
Qed.

End rows.

(** ** What the reads return *)

Lemma request_reachable {A} (e : env) (q : result A) :
  db_reachable e = true → request e q = q.
Proof. unfold request. by intros ->. Qed.

Lemma embedded_photo_Some auth_uid db r p :
  embedded_photo auth_uid db r = Some p →
  p ∈ photos db ∧ photos_policy auth_uid p ∧ Photo.id p = AlbumPhoto.photo_id r.
Proof.
  unfold embedded_photo, photos_select. intros Hp%head_Some_elem_of.
  apply list_elem_of_filter in Hp as [? Hp]. apply list_elem_of_filter in Hp as [? ?]. done.
Qed.

Lemma embedded_photo_visible auth_uid db r p :
  NoDup (Photo.id <$> photos db) →
  p ∈ photos db → photos_policy auth_uid p → Photo.id p = AlbumPhoto.photo_id r →
  embedded_photo auth_uid db r = Some p.
Proof.
  intros Hnd Hp Hpol Hid. unfold embedded_photo, photos_select.
  rewrite list_filter_filter.
  rewrite (filter_equiv _ (λ x, Photo.id x = Photo.id p ∧ photos_policy auth_uid x)).
  - by rewrite (filter_key Photo.id).
  - intros x _. rewrite Hid. tauto.
Qed.

(** The caller sees the membership rows of the albums they own. *)
Lemma album_photos_policy_owner owner db a :
  a ∈ albums db → Album.user_id a = owner →
  album_photos_policy (Some owner) db (Album.id a).
Proof.
  intros Ha Ho. apply Exists_exists. exists a. unfold owns. by rewrite Ho.
Qed.

(** The album of a page: the one row with that id, when its owner asks. *)
Lemma albums_single db a :
  NoDup (Album.id <$> albums db) → a ∈ albums db →
  filter (λ x, Album.id x = Album.id a ∧ Album.user_id x = Album.user_id a)
    (albums_select (Some (Album.user_id a)) db) = [a].
Proof.
  intros Hnd Ha. unfold albums_select. rewrite list_filter_filter.
  rewrite (filter_equiv _ (λ x, Album.id x = Album.id a
                               ∧ (Album.user_id x = Album.user_id a
                                  ∧ albums_policy (Some (Album.user_id a)) x))).
  - by apply (filter_key Album.id).
  - intros x _. tauto.
Qed.

(** The members of an album as its owner's page lists them. *)
Lemma elem_of_listAlbumPhotos e auth_uid A db p :
  p ∈ AlbumDetail.listAlbumPhotos e auth_uid A db →
  ∃ r q, r ∈ album_photos db ∧ AlbumPhoto.album_id r = A
         ∧ q ∈ photos db ∧ Photo.id q = AlbumPhoto.photo_id r
         ∧ photos_policy auth_uid q ∧ p = AlbumDetail.columns q.
Proof.
  unfold AlbumDetail.listAlbumPhotos, request.
  destruct (db_reachable e); [|by intros ?%elem_of_nil].
  intros (r & Hr & Hq)%list_elem_of_omap.
  apply list_elem_of_filter in Hr as [HA Hr].
  apply list_elem_of_filter in Hr as [_ Hr].
  destruct (embedded_photo auth_uid db r) as [q|] eqn:He; [|done].
  apply embedded_photo_Some in He as (? & ? & ?).
  exists r, q. by simplify_eq/=.
Qed.

Lemma listAlbumPhotos_elem_of e owner a db r q :
  db_reachable e = true → NoDup (Photo.id <$> photos db) →
  a ∈ albums db → Album.user_id a = owner →
  r ∈ album_photos db → AlbumPhoto.album_id r = Album.id a →
  q ∈ photos db → Photo.id q = AlbumPhoto.photo_id r → Photo.user_id q = owner →
  AlbumDetail.columns q ∈ AlbumDetail.listAlbumPhotos e (Some owner) (Album.id a) db.
Proof.
  intros He Hnd Ha Ho Hr HA Hq Hid Hqo.
  unfold AlbumDetail.listAlbumPhotos. rewrite request_reachable by done.
  apply list_elem_of_omap. exists r. split.
  - apply list_elem_of_filter. split; [done|].
    apply list_elem_of_filter. split; [|done].
    rewrite HA. by apply album_photos_policy_owner.
  - rewrite (embedded_photo_visible _ _ _ q); try done.
    unfold photos_policy, owns. by rewrite Hqo.
Qed.

Lemma own_photos_select owner db :
  filter (λ p, Photo.user_id p = owner) (photos_select (Some owner) db)
  = filter (λ p, Photo.user_id p = owner) (photos db).
Proof.
  unfold photos_select. rewrite list_filter_filter. apply filter_equiv.
  intros p _. unfold photos_policy, owns. split; [tauto|]. intros ->. done.
Qed.

(** ** The photos of an album and the photos to pick from *)

(** C3: for an album [A] of [owner], the photos offered for adding and the
    photos listed as members share no photo, and together they are exactly
    the photos of [owner]. *)
Theorem available_photos_complement (e : env) (owner : uuid) (a : Album.t) (db : database) :
  db_reachable e = true → schema_ok db →
  a ∈ albums db → Album.user_id a = owner →
  ∃ st, AlbumDetail.loadAlbumData e (Some owner) (Some (Album.id a)) owner db = Some (Ok st)
    ∧ AlbumDetail.albumPhotos st = AlbumDetail.listAlbumPhotos e (Some owner) (Album.id a) db
    ∧ (∀ p, p ∈ AlbumDetail.availablePhotos st →
            AlbumDetail.id p ∉ AlbumDetail.id <$> AlbumDetail.albumPhotos st)
    ∧ (∀ p, p ∈ AlbumDetail.availablePhotos st → p ∉ AlbumDetail.albumPhotos st)
    ∧ (∀ p, p ∈ AlbumDetail.availablePhotos st ∨ p ∈ AlbumDetail.albumPhotos st
            ↔ p ∈ photos_owned_by owner db)
    ∧ (∀ p, p ∈ AlbumDetail.availablePhotos st
            ↔ p ∈ photos_owned_by owner db
              ∧ (Album.id a, AlbumDetail.id p) ∉ AlbumPhoto.key <$> album_photos db).
Proof.
  intros He Hok Ha Ho.
  unfold AlbumDetail.loadAlbumData. simpl. rewrite request_reachable by done.
  subst owner. rewrite albums_single by (done || apply Hok). simpl.
  eexists. split; [done|]. simpl. split; [done|].
  set (members := AlbumDetail.listAlbumPhotos e _ _ db).
  assert (Hav : ∀ p, p ∈ AlbumDetail.listAvailablePhotos e (Some (Album.user_id a))
                           (Album.user_id a) members db
                     ↔ p ∈ photos_owned_by (Album.user_id a) db
                       ∧ AlbumDetail.id p ∉ AlbumDetail.id <$> members).
  { intros p. unfold AlbumDetail.listAvailablePhotos. rewrite request_reachable by done.
    rewrite list_elem_of_filter, not_elem_of_list_to_set, own_photos_select.
    unfold photos_owned_by. tauto. }
  split; [|split; [|split]].
  - intros p Hp. by apply Hav in Hp as [_ ?].
  - intros p Hp Hm. apply Hav in Hp as [_ []]. by apply list_elem_of_fmap_2.
  - intros p. split.
    + intros [Hp|Hp]; [by apply Hav in Hp as [? _]|].
      apply elem_of_listAlbumPhotos in Hp as (r & q & ? & ? & ? & ? & Hpol & ->).
      apply list_elem_of_fmap_2, list_elem_of_filter. split; [|done].
      unfold photos_policy, owns in Hpol. congruence.
    + intros Hp.
      destruct (decide (AlbumDetail.id p ∈ AlbumDetail.id <$> members)) as [Hin|Hout];
        [right|left; by apply Hav].
      apply list_elem_of_fmap in Hin as (p' & Hid & Hp').
      assert (p = p') as ->; [|done].
      apply elem_of_listAlbumPhotos in Hp' as (r & q' & ? & ? & ? & ? & ? & ->).
      apply list_elem_of_fmap in Hp as (q & -> & [? ?]%list_elem_of_filter).
      f_equal. eapply (key_inj Photo.id); [apply Hok|done..].
  - intros p. rewrite Hav. split; intros [Hp Hout]; (split; [done|]).
    + intros (r & Hk & Hr)%list_elem_of_fmap. apply Hout.
      apply list_elem_of_fmap in Hp as (q & -> & [Hq Hin]%list_elem_of_filter).
      injection Hk as HA Hid.
      apply (list_elem_of_fmap_2' _ _ (AlbumDetail.columns q)); [|done].
      eapply listAlbumPhotos_elem_of; try done. apply Hok.
    + intros (p' & Hid & Hp')%list_elem_of_fmap. apply Hout.
      apply elem_of_listAlbumPhotos in Hp' as (r & q & Hr & HA & _ & Hq & _ & ->).
      apply list_elem_of_fmap. exists r. split; [|done].
      unfold AlbumPhoto.key. rewrite HA, Hid. simpl. by rewrite Hq.
Qed.

(** For the album [A] of [u1] with members [p1], [p2]: only [p3] is offered. *)
Lemma available_photos_complement_witness :
  ∃ st, AlbumDetail.loadAlbumData (Scenario.env_at 30 "g3") (Some "u1") (Some "A") "u1" Scenario.db1
        = Some (Ok st)
    ∧ AlbumDetail.id <$> AlbumDetail.albumPhotos st = ["p1"; "p2"]
    ∧ AlbumDetail.id <$> AlbumDetail.availablePhotos st = ["p3"].
Proof.
  destruct (available_photos_complement (Scenario.env_at 30 "g3") "u1" Scenario.album_A Scenario.db1)
    as (st & Hst & _).
  - reflexivity.
  - apply schema_check_ok. vm_compute. reflexivity.
  - vm_compute. apply list_elem_of_here.
  - reflexivity.
  - exists st. split; [exact Hst|].
    vm_compute in Hst. injection Hst as <-. split; reflexivity.
Defined.

(** ** Adding photos to an album *)

Lemma foldR_cons {A S} (f : S → A → result S) (s : S) (a : A) (l : list A) :
  foldR f s (a :: l) = match f s a with Ok s' => foldR f s' l | Err e => Err e end.
Proof. done. Qed.

Lemma album_photos_insert_row_eq auth_uid e db A p :
  album_photos_insert_row auth_uid e db (A, p)
  = if decide (album_photos_policy auth_uid db A) then
      if decide ((A, p) ∈ AlbumPhoto.key <$> album_photos db) then Err unique_violation
      else Ok (with_album_photos (λ t, t ++ [AlbumPhoto.mk A p (now e)]) db)
    else Err rls_violation.
Proof. done. Qed.

(** The rows go in one after the other when the caller owns the album and
    no key is there already or comes twice. *)
Lemma insert_rows_ok auth_uid e A S db :
  album_photos_policy auth_uid db A →
  NoDup S → Forall (λ p, (A, p) ∉ AlbumPhoto.key <$> album_photos db) S →
  foldR (album_photos_insert_row auth_uid e) db ((λ p, (A, p)) <$> S)
  = Ok (with_album_photos (λ t, t ++ new_album_photos e A S) db).
Proof.
  intros Hpol. revert db Hpol. induction S as [|p S IH]; intros db Hpol Hnd Hnew.
  - destruct db. unfold with_album_photos, new_album_photos. simpl. by rewrite app_nil_r.
  - apply NoDup_cons in Hnd as [Hp Hnd]. apply Forall_cons in Hnew as [Hpnew Hnew].
    rewrite fmap_cons, foldR_cons, album_photos_insert_row_eq.
    rewrite decide_True by done. rewrite decide_False by done.
    rewrite IH; try done.
    + destruct db. unfold with_album_photos, new_album_photos. simpl.
      by rewrite <- app_assoc.
    + apply Forall_forall. intros x Hx.
      rewrite Forall_forall in Hnew. specialize (Hnew x Hx).
      simpl. rewrite fmap_app, elem_of_app. intros [?|Hk]; [done|].
      apply list_elem_of_singleton in Hk. injection Hk as ->. done.
Qed.

(** A row whose key is already in the table stops the statement, whatever
    else is in it. *)
Lemma insert_rows_duplicate auth_uid e A S db :
  album_photos_policy auth_uid db A →
  Exists (λ p, (A, p) ∈ AlbumPhoto.key <$> album_photos db) S →
  foldR (album_photos_insert_row auth_uid e) db ((λ p, (A, p)) <$> S) = Err unique_violation.
Proof.
  intros Hpol Hex. revert db Hpol Hex. induction S as [|p S IH]; intros db Hpol Hex.
  - by apply Exists_nil in Hex.
  - rewrite fmap_cons, foldR_cons, album_photos_insert_row_eq.
    rewrite decide_True by done.
    destruct (decide ((A, p) ∈ AlbumPhoto.key <$> album_photos db)) as [|Hp]; [done|].
    apply IH; [done|].
    apply Exists_cons in Hex as [?|Hex]; [done|].
    eapply Exists_impl; [exact Hex|]. simpl. intros x Hx.
    rewrite fmap_app, elem_of_app. by left.
Qed.

(** Without an album of that id that the caller owns, the first row is
    refused by the insert policy. *)
Lemma insert_rows_refused auth_uid e A p S db :
  ¬ album_photos_policy auth_uid db A →
  foldR (album_photos_insert_row auth_uid e) db ((λ p, (A, p)) <$> p :: S) = Err rls_violation.
Proof.
  intros Hpol. rewrite fmap_cons, foldR_cons, album_photos_insert_row_eq.
  by rewrite decide_False.
Qed.

Lemma handleAddPhotos_cons e auth_uid A p S db :
  AlbumDetail.handleAddPhotos e auth_uid (Some A) (p :: S) db
  = match request e (album_photos_insert auth_uid e ((λ photoId, (A, photoId)) <$> p :: S) db) with
    | Err error => (toast_error "Erro ao adicionar fotos" error, db)
    | Ok db' => (toast_info "Fotos adicionadas!", db')
    end.
Proof. done. Qed.

Lemma album_photos_insert_eq auth_uid e rows db :
  album_photos_insert auth_uid e rows db
  = match foldR (album_photos_insert_row auth_uid e) db rows with
    | Ok db' =>
        if decide (Forall (album_photos_fk db') rows) then Ok db' else Err foreign_key_violation
    | Err error => Err error
    end.
Proof. done. Qed.

(** What [handleAddPhotos] does for the owner of the album when every
    selected photo exists and none is a member yet. *)
Lemma handleAddPhotos_new e owner a S db :
  db_reachable e = true → a ∈ albums db → Album.user_id a = owner → S ≠ [] →
  NoDup S →
  Forall (λ p, p ∈ Photo.id <$> photos db
               ∧ (Album.id a, p) ∉ AlbumPhoto.key <$> album_photos db) S →
  AlbumDetail.handleAddPhotos e (Some owner) (Some (Album.id a)) S db
  = (toast_info "Fotos adicionadas!",
     with_album_photos (λ t, t ++ new_album_photos e (Album.id a) S) db).
Proof.
  intros He Ha Ho HS Hnd Hnew. destruct S as [|p S]; [done|].
  rewrite handleAddPhotos_cons, request_reachable, album_photos_insert_eq by done.
  rewrite insert_rows_ok; try done.
  - rewrite decide_True; [done|].
    apply Forall_fmap, Forall_forall. intros x Hx.
    rewrite Forall_forall in Hnew. destruct (Hnew x Hx) as [Hph _].
    split; simpl; [by apply list_elem_of_fmap_2|done].
  - by apply album_photos_policy_owner.
  - eapply Forall_impl; [exact Hnew|]. by intros x [_ ?].
Qed.

(** ... and when one of them is a member already. *)
Lemma handleAddPhotos_member e owner a S db :
  db_reachable e = true → a ∈ albums db → Album.user_id a = owner →
  Exists (λ p, (Album.id a, p) ∈ AlbumPhoto.key <$> album_photos db) S →
  AlbumDetail.handleAddPhotos e (Some owner) (Some (Album.id a)) S db
  = (toast_error "Erro ao adicionar fotos" unique_violation, db).
Proof.
  intros He Ha Ho Hex. destruct S as [|p S]; [by apply Exists_nil in Hex|].
  rewrite handleAddPhotos_cons, request_reachable, album_photos_insert_eq by done.
  rewrite insert_rows_duplicate; [done| |done].
  by apply album_photos_policy_owner.
Qed.

Lemma new_album_photos_keys e A S :
  AlbumPhoto.key <$> new_album_photos e A S = (λ p, (A, p)) <$> S.
Proof. unfold new_album_photos. rewrite <- list_fmap_compose. done. Qed.

(** C1, as the code has it: for the owner of album [A] and a non-empty
    selection [S] of photo ids, [handleAddPhotos] appends one membership row
    per id of [S] when these are distinct existing photos of which none is a
    member of [A] yet, and the primary key stays free of duplicates; when
    some id of [S] is a member already the whole insert is refused with a
    unique violation, an error is shown and no row is added. *)
Theorem add_photos_new_or_refused (e : env) (owner : uuid) (a : Album.t) (S : list uuid) (db : database) :
  db_reachable e = true → a ∈ albums db → Album.user_id a = owner → S ≠ [] →
  (NoDup S →
   Forall (λ p, p ∈ Photo.id <$> photos db
                ∧ (Album.id a, p) ∉ AlbumPhoto.key <$> album_photos db) S →
   let db' := with_album_photos (λ t, t ++ new_album_photos e (Album.id a) S) db in
   AlbumDetail.handleAddPhotos e (Some owner) (Some (Album.id a)) S db
     = (toast_info "Fotos adicionadas!", db')
   ∧ AlbumPhoto.key <$> album_photos db'
     = (AlbumPhoto.key <$> album_photos db) ++ ((λ p, (Album.id a, p)) <$> S)
   ∧ (NoDup (AlbumPhoto.key <$> album_photos db) → NoDup (AlbumPhoto.key <$> album_photos db')))
  ∧ (Exists (λ p, (Album.id a, p) ∈ AlbumPhoto.key <$> album_photos db) S →
     AlbumDetail.handleAddPhotos e (Some owner) (Some (Album.id a)) S db
     = (toast_error "Erro ao adicionar fotos" unique_violation, db)).
Proof.
  intros He Ha Ho HS. split.
  - intros Hnd Hnew db'. split; [by apply handleAddPhotos_new|].
    assert (Hk : AlbumPhoto.key <$> album_photos db'
                 = (AlbumPhoto.key <$> album_photos db) ++ ((λ p, (Album.id a, p)) <$> S)).
    { unfold db'. simpl. by rewrite fmap_app, new_album_photos_keys. }
    split; [done|]. rewrite Hk. intros Hold.
    apply NoDup_app. split; [done|]. split.
    + intros k Hk1 (p & -> & Hp)%list_elem_of_fmap.
      rewrite Forall_forall in Hnew. by destruct (Hnew p Hp).
    + apply NoDup_fmap_2; [|done]. by intros x y [=].
  - by apply handleAddPhotos_member.
Qed.

(** [u1] adds [p1], [p2] to [A]; adding [p1], [p3] afterwards is refused. *)
Lemma add_photos_new_or_refused_witness :
  AlbumDetail.handleAddPhotos (Scenario.env_at 10 "g1") (Some "u1") (Some "A") ["p1"; "p2"]
    Scenario.db0
  = (toast_info "Fotos adicionadas!", Scenario.db1)
  ∧ AlbumDetail.handleAddPhotos (Scenario.env_at 20 "g2") (Some "u1") (Some "A") ["p1"; "p3"]
      Scenario.db1
    = (toast_error "Erro ao adicionar fotos" unique_violation, Scenario.db1).
Proof.
  split.
  - destruct (add_photos_new_or_refused (Scenario.env_at 10 "g1") "u1" Scenario.album_A
                ["p1"; "p2"] Scenario.db0) as [Hnew _].
    + reflexivity.
    + vm_compute. apply list_elem_of_here.
    + reflexivity.
    + discriminate.
    + destruct Hnew as [Hrun _].
      * by_computation.
      * by_computation.
      * exact Hrun.
  - destruct (add_photos_new_or_refused (Scenario.env_at 20 "g2") "u1" Scenario.album_A
                ["p1"; "p3"] Scenario.db1) as [_ Hdup].
    + reflexivity.
    + vm_compute. apply list_elem_of_here.
    + reflexivity.
    + discriminate.
    + apply Hdup. by_computation.
Defined.

(** C1, as the specification words it, fails: after [p1] and [p2] were added
    to [A], adding [p1] and [p3] shows an error, and [p3] is not a member. *)
Lemma add_photos_again_not_idempotent :
  let (shown, db) :=
    AlbumDetail.handleAddPhotos (Scenario.env_at 20 "g2") (Some "u1") (Some "A") ["p1"; "p3"]
      Scenario.db1 in
  shown = toast_error "Erro ao adicionar fotos" unique_violation
  ∧ AlbumPhoto.key <$> album_photos db = [("A", "p1"); ("A", "p2")]
  ∧ ("A", "p3") ∉ AlbumPhoto.key <$> album_photos db.
Proof.
  vm_compute. split; [done|]. split; [done|].
  intros H. repeat (apply elem_of_cons in H as [[=]|H]). by apply elem_of_nil in H.
Qed.

(** ** Adding a photo of another user *)

Lemma handleAddPhotos_not_owner e auth_uid A p S db :
  db_reachable e = true → ¬ album_photos_policy auth_uid db A →
  AlbumDetail.handleAddPhotos e auth_uid (Some A) (p :: S) db
  = (toast_error "Erro ao adicionar fotos" rls_violation, db).
Proof.
  intros He Hpol.
  rewrite handleAddPhotos_cons, request_reachable, album_photos_insert_eq by done.
  by rewrite insert_rows_refused.
Qed.

(** C2, as the code has it: the insert policy of [album_photos] looks at the
    owner of the album only. The owner of album [A] who adds a photo [q] of
    another user that is not yet in [A] gets no error and the row (A, q) is
    created; the photos policy then keeps [q] out of the list of photos the
    owner of [A] sees in the album. A caller who owns no album with that id
    is refused by the policy and no row is created. *)
Theorem add_foreign_photo_accepted (e : env) (owner : uuid) (a : Album.t) (q : Photo.t) (db : database) :
  db_reachable e = true → NoDup (Photo.id <$> photos db) →
  a ∈ albums db → Album.user_id a = owner →
  q ∈ photos db → Photo.user_id q ≠ owner →
  (Album.id a, Photo.id q) ∉ AlbumPhoto.key <$> album_photos db →
  let db' := with_album_photos
               (λ t, t ++ [AlbumPhoto.mk (Album.id a) (Photo.id q) (now e)]) db in
  AlbumDetail.handleAddPhotos e (Some owner) (Some (Album.id a)) [Photo.id q] db
    = (toast_info "Fotos adicionadas!", db')
  ∧ (Album.id a, Photo.id q) ∈ AlbumPhoto.key <$> album_photos db'
  ∧ (Photo.id q ∉ AlbumDetail.id <$> AlbumDetail.listAlbumPhotos e (Some owner) (Album.id a) db')
  ∧ (∀ caller, ¬ album_photos_policy caller db (Album.id a) →
       AlbumDetail.handleAddPhotos e caller (Some (Album.id a)) [Photo.id q] db
       = (toast_error "Erro ao adicionar fotos" rls_violation, db)).
Proof.
  intros He Hnd Ha Ho Hq Hforeign Hnew db'. split; [|split; [|split]].
  - apply (handleAddPhotos_new e owner a [Photo.id q]); try done.
    + apply NoDup_singleton.
    + apply Forall_singleton. split; [by apply list_elem_of_fmap_2|done].
  - unfold db'. simpl. rewrite fmap_app, elem_of_app. right. apply list_elem_of_here.
  - intros (p & Hid & Hp)%list_elem_of_fmap.
    apply elem_of_listAlbumPhotos in Hp as (r & q' & _ & _ & Hq' & _ & Hpol & ->).
    simpl in Hid. assert (q = q') as <- by (by eapply (key_inj Photo.id)).
    unfold photos_policy, owns in Hpol. congruence.
  - intros caller Hpol. by apply handleAddPhotos_not_owner.
Qed.

(** [u1] adds the photo [q1] of [u2] to the album [A]. *)
Lemma add_foreign_photo_accepted_witness :
  AlbumDetail.handleAddPhotos (Scenario.env_at 10 "g1") (Some "u1") (Some "A") ["q1"] Scenario.db0
  = (toast_info "Fotos adicionadas!",
     with_album_photos (λ t, t ++ [AlbumPhoto.mk "A" "q1" 10]) Scenario.db0).
Proof.
  destruct (add_foreign_photo_accepted (Scenario.env_at 10 "g1") "u1" Scenario.album_A
              Scenario.q1 Scenario.db0) as [Hrun _].
  - reflexivity.
  - by_computation.
  - by_computation.
  - reflexivity.
  - by_computation.
  - discriminate.
  - by_computation.
  - exact Hrun.
Defined.

(** C2, as the specification words it, fails: [u1] adds the photo [q1] of [u2]
    to the album [A] of [u1]; no error is shown and the row (A, q1) is there. *)
Lemma add_foreign_photo_not_forbidden :
  Photo.user_id Scenario.q1 ≠ Album.user_id Scenario.album_A
  ∧ (let (shown, db) :=
       AlbumDetail.handleAddPhotos (Scenario.env_at 10 "g1") (Some "u1") (Some "A") ["q1"]
         Scenario.db0 in
     shown = toast_info "Fotos adicionadas!"
     ∧ ("A", "q1") ∈ AlbumPhoto.key <$> album_photos db).
Proof.
  split; [discriminate|]. vm_compute. split; [done|]. apply list_elem_of_here.
Qed.

(** ** Deleting a photo *)

Lemma database_eta db :
  Database (auth_users db) (profiles db) (photos db) (albums db) (album_photos db) = db.
Proof. by destruct db. Qed.

(** With no photo deleted, no foreign-key action changes a row. *)
Lemma set_null_cover_nil a : set_null_cover [] a = a.
Proof.
  unfold set_null_cover. destruct (Album.cover_photo_id a); [|done].
  rewrite decide_False; [done|]. apply not_elem_of_nil.
Qed.

Lemma set_null_cover_singleton id a :
  set_null_cover [id] a
  = if decide (Album.cover_photo_id a = Some id) then Album.set_cover_photo_id None a else a.
Proof.
  unfold set_null_cover. destruct (Album.cover_photo_id a) as [c|] eqn:Hc.
  - destruct (decide (c ∈ [id])) as [Hin|Hout].
    + apply list_elem_of_singleton in Hin as ->. by rewrite decide_True.
    + rewrite decide_False; [done|]. intros [= ->]. apply Hout, list_elem_of_here.
  - by rewrite decide_False.
Qed.

(** A delete that matches no row the caller may delete changes nothing and
    is no error. *)
Lemma photos_delete_none auth_uid photo_id db :
  Forall (λ p, ¬ (photos_policy auth_uid p ∧ Photo.id p = photo_id)) (photos db) →
  photos_delete auth_uid photo_id db = Ok db.
Proof.
  intros Hnone. unfold photos_delete.
  rewrite (filter_none _ _ Hnone). simpl.
  rewrite filter_all by done.
  rewrite (filter_all (λ r, AlbumPhoto.photo_id r ∉ [])).
  - rewrite (list_fmap_ext _ id (albums db)) by (intros _ a _; apply set_null_cover_nil).
    by rewrite list_fmap_id, database_eta.
  - apply Forall_forall. intros r _. apply not_elem_of_nil.
Qed.

(** The delete of a photo by its owner, with its two foreign-key actions. *)
Lemma photos_delete_owner owner p db :
  NoDup (Photo.id <$> photos db) → p ∈ photos db → Photo.user_id p = owner →
  photos_delete (Some owner) (Photo.id p) db
  = Ok (Database (auth_users db) (profiles db)
          (filter (λ x, Photo.id x ≠ Photo.id p) (photos db))
          ((λ a, if decide (Album.cover_photo_id a = Some (Photo.id p))
                 then Album.set_cover_photo_id None a else a) <$> albums db)
          (filter (λ r, AlbumPhoto.photo_id r ≠ Photo.id p) (album_photos db))).
Proof.
  intros Hnd Hp Ho. unfold photos_delete.
  rewrite (filter_equiv (λ x, photos_policy (Some owner) x ∧ Photo.id x = Photo.id p)
             (λ x, Photo.id x = Photo.id p ∧ photos_policy (Some owner) x)) by (intros; tauto).
  rewrite (filter_key Photo.id) by (done || by unfold photos_policy, owns; rewrite Ho).
  f_equal. f_equal.
  - apply filter_equiv. intros x Hx. split; [|tauto].
    intros Hkeep Hid. apply Hkeep. split; [|done].
    assert (x = p) as -> by (by eapply (key_inj Photo.id)).
    unfold photos_policy, owns. by rewrite Ho.
  - apply list_fmap_ext. intros _ a _. apply set_null_cover_singleton.
  - apply filter_equiv. intros r _. simpl. rewrite list_elem_of_singleton. done.
Qed.

Lemma handleDelete_photo_eq e auth_uid photoId photoUrl db bucket :
  Home.handleDelete e auth_uid photoId photoUrl db bucket
  = if confirm e then
      let bucket' := (storage_remove auth_uid e [split_1 "/photos/" photoUrl] bucket).2 in
      match request e (photos_delete auth_uid photoId db) with
      | Err error => (toast_error "Erro ao excluir foto" error, db, bucket')
      | Ok db' => (toast_info "Foto excluída", db', bucket')
      end
    else (no_toast, db, bucket).
Proof. done. Qed.

(** C4, as the code has it: when user [U] confirms the deletion of a photo
    [p] of theirs, the row of [p] is removed, every membership row that
    refers to [p] is removed from every album, every album whose cover is
    [p] gets a null cover and is otherwise kept, and the success message is
    shown. Doing the same again on the result shows the success message
    again, not an error, and changes nothing in the database. *)
Theorem delete_photo_then_again (e : env) (U : uuid) (p : Photo.t) (photoUrl : string)
    (db : database) (bucket : list string) :
  confirm e = true → db_reachable e = true → NoDup (Photo.id <$> photos db) →
  p ∈ photos db → Photo.user_id p = U →
  let '(shown, db', bucket') := Home.handleDelete e (Some U) (Photo.id p) photoUrl db bucket in
  shown = toast_info "Foto excluída"
  ∧ photos db' = filter (λ x, Photo.id x ≠ Photo.id p) (photos db)
  ∧ (Photo.id p ∉ Photo.id <$> photos db')
  ∧ album_photos db' = filter (λ r, AlbumPhoto.photo_id r ≠ Photo.id p) (album_photos db)
  ∧ albums db' = (λ a, if decide (Album.cover_photo_id a = Some (Photo.id p))
                       then Album.set_cover_photo_id None a else a) <$> albums db
  ∧ (Home.handleDelete e (Some U) (Photo.id p) photoUrl db' bucket').1
    = (toast_info "Foto excluída", db').
Proof.
  intros Hc He Hnd Hp Ho.
  rewrite handleDelete_photo_eq, Hc, request_reachable by done.
  rewrite (photos_delete_owner U) by done. cbv zeta.
  set (db' := Database _ _ _ _ _).
  assert (Hgone : Photo.id p ∉ Photo.id <$> photos db').
  { intros (x & Hid & Hx)%list_elem_of_fmap. apply list_elem_of_filter in Hx as [Hne _]. done. }
  repeat split; try done.
  rewrite handleDelete_photo_eq, Hc, request_reachable by done. cbv zeta.
  rewrite photos_delete_none; [done|].
  apply Forall_forall. intros x Hx [_ Hid]. apply Hgone. rewrite <- Hid.
  by apply list_elem_of_fmap_2.
Qed.

(** [u1] deletes [p3], the cover and a member of [A], twice. *)
Lemma delete_photo_then_again_witness :
  let '(shown, db', bucket') :=
    Home.handleDelete (Scenario.env_at 30 "g3") (Some "u1") "p3" (Photo.url Scenario.p3)
      Scenario.db2_cover Scenario.bucket0 in
  shown = toast_info "Foto excluída"
  ∧ Photo.id <$> photos db' = ["p1"; "p2"; "q1"]
  ∧ AlbumPhoto.key <$> album_photos db' = [("A", "p1"); ("A", "p2")]
  ∧ Album.cover_photo_id <$> albums db' = [None; None]
  ∧ bucket' = ["u1/1.png"; "u1/2.png"; "u2/1.png"]
  ∧ (Home.handleDelete (Scenario.env_at 30 "g3") (Some "u1") "p3" (Photo.url Scenario.p3)
       db' bucket').1 = (toast_info "Foto excluída", db').
Proof.
  pose proof (delete_photo_then_again (Scenario.env_at 30 "g3") "u1" Scenario.p3
                (Photo.url Scenario.p3) Scenario.db2_cover Scenario.bucket0) as H.
  destruct (Home.handleDelete _ _ _ _ _ _) as [[shown db'] bucket'] eqn:Hrun in H |- *.
  destruct H as (Hshown & _ & _ & _ & _ & Hagain).
  - reflexivity.
  - reflexivity.
  - by_computation.
  - by_computation.
  - reflexivity.
  - vm_compute in Hrun. injection Hrun as <- <- <-.
    split; [exact Hshown|]. repeat (split; [reflexivity|]). exact Hagain.
Defined.

(** C4, as the specification words it, fails in its last part: [u1] deletes
    [p3] and deletes it again; the second time the photo is gone already, and
    what is shown is the success message, not an error. *)
Lemma delete_photo_again_no_error :
  let '(_, db', bucket') :=
    Home.handleDelete (Scenario.env_at 30 "g3") (Some "u1") "p3" (Photo.url Scenario.p3)
      Scenario.db2_cover Scenario.bucket0 in
  ("p3" ∉ Photo.id <$> photos db')
  ∧ (Home.handleDelete (Scenario.env_at 31 "g4") (Some "u1") "p3" (Photo.url Scenario.p3)
       db' bucket').1.1 = toast_info "Foto excluída".
Proof.
  vm_compute. split; [|done].
  intros H. repeat (apply elem_of_cons in H as [[=]|H]). by apply elem_of_nil in H.
Qed.

(** ** The blob store and the deletion of a photo *)

(** C10: in [Home.handleDelete] the removal from the blob store comes first
    and its answer is dropped. What is shown and what the database holds
    afterwards are the same whether the blob store succeeded or failed; once
    the user has confirmed, the removal has been attempted whatever the
    database answers, the photo row is deleted whenever the delete request
    succeeds, and an error is shown exactly when the delete request failed,
    with the error of that request. *)
Theorem delete_photo_ignores_blob_store (e : env) (auth_uid : option uuid) (photoId : uuid)
    (photoUrl : string) (db : database) (bucket : list string) :
  (∀ ok, (Home.handleDelete (with_storage_remove_ok ok e) auth_uid photoId photoUrl db bucket).1
         = (Home.handleDelete e auth_uid photoId photoUrl db bucket).1)
  ∧ (confirm e = true →
     let '(shown, db', bucket') := Home.handleDelete e auth_uid photoId photoUrl db bucket in
     bucket' = (storage_remove auth_uid e [split_1 "/photos/" photoUrl] bucket).2
     ∧ (∀ deleted, request e (photos_delete auth_uid photoId db) = Ok deleted →
          shown = toast_info "Foto excluída" ∧ db' = deleted)
     ∧ (∀ error, shown = toast_error "Erro ao excluir foto" error
                 ↔ request e (photos_delete auth_uid photoId db) = Err error)
     ∧ (storage_remove_ok e = false → db_reachable e = true →
          shown = toast_info "Foto excluída"
          ∧ photos db' = filter (λ p, ¬ (photos_policy auth_uid p ∧ Photo.id p = photoId))
                           (photos db))).
Proof.
  split.
  - intros ok. rewrite !handleDelete_photo_eq. simpl.
    destruct (confirm e); [|done]. unfold request. simpl.
    destruct (db_reachable e); done.
  - intros Hc. rewrite handleDelete_photo_eq, Hc. cbv zeta.
    destruct (request e (photos_delete auth_uid photoId db)) as [deleted|error] eqn:Hreq.
    + split; [done|]. split; [by intros ? [= <-]|]. split; [done|].
      intros _ He. rewrite request_reachable in Hreq by done.
      unfold photos_delete in Hreq. injection Hreq as <-. done.
    + split; [done|]. split; [done|]. split.
      * intros error'. split; intros [= ->]; done.
      * intros _ He. rewrite request_reachable in Hreq by done. done.
Qed.

(** The blob store fails, the photo row is deleted all the same. *)
Lemma delete_photo_ignores_blob_store_witness :
  let e := Env 30 "g3" true false true in
  let '(shown, db', bucket') :=
    Home.handleDelete e (Some "u1") "p3" (Photo.url Scenario.p3) Scenario.db2 Scenario.bucket0 in
  shown = toast_info "Foto excluída"
  ∧ Photo.id <$> photos db' = ["p1"; "p2"; "q1"]
  ∧ bucket' = Scenario.bucket0.
Proof.
  intros e.
  destruct (delete_photo_ignores_blob_store e (Some "u1") "p3" (Photo.url Scenario.p3)
              Scenario.db2 Scenario.bucket0) as [_ H].
  destruct (Home.handleDelete _ _ _ _ _ _) as [[shown db'] bucket'] eqn:Hrun in H |- *.
  destruct H as (Hbucket & _ & _ & Hfail).
  - reflexivity.
  - destruct Hfail as [Hshown Hphotos]; [reflexivity|reflexivity|].
    split; [exact Hshown|]. split.
    + rewrite Hphotos. reflexivity.
    + rewrite Hbucket. reflexivity.
Defined.

(** ** Deleting an album *)

(** The delete of an album by its owner, with its foreign-key action. *)
Lemma albums_delete_owner owner a db :
  NoDup (Album.id <$> albums db) → a ∈ albums db → Album.user_id a = owner →
  albums_delete (Some owner) (Album.id a) db
  = Ok (Database (auth_users db) (profiles db) (photos db)
          (filter (λ x, Album.id x ≠ Album.id a) (albums db))
          (filter (λ r, AlbumPhoto.album_id r ≠ Album.id a) (album_photos db))).
Proof.
  intros Hnd Ha Ho. unfold albums_delete.
  rewrite (filter_equiv (λ x, albums_policy (Some owner) x ∧ Album.id x = Album.id a)
             (λ x, Album.id x = Album.id a ∧ albums_policy (Some owner) x)) by (intros; tauto).
  rewrite (filter_key Album.id) by (done || by unfold albums_policy, owns; rewrite Ho).
  f_equal. f_equal.
  - apply filter_equiv. intros x Hx. split; [|tauto].
    intros Hkeep Hid. apply Hkeep. split; [|done].
    assert (x = a) as -> by (by eapply (key_inj Album.id)).
    unfold albums_policy, owns. by rewrite Ho.
  - apply filter_equiv. intros r _. simpl. rewrite list_elem_of_singleton. done.
Qed.

(** The delete of an album never touches [photos]. *)
Lemma albums_delete_photos auth_uid album_id db db' :
  albums_delete auth_uid album_id db = Ok db' → photos db' = photos db.
Proof. unfold albums_delete. by intros [= <-]. Qed.

(** What the page of photos lists for a user: their photos, all of them. *)
Lemma loadPhotos_elem_of e p db :
  db_reachable e = true → p ∈ photos db →
  ∃ listed, Home.loadPhotos e (Some (Photo.user_id p)) (Photo.user_id p) db = Ok listed
            ∧ p ∈ listed.
Proof.
  intros He Hp. unfold Home.loadPhotos. rewrite request_reachable by done.
  eexists. split; [done|].
  rewrite merge_sort_Permutation, own_photos_select.
  by apply list_elem_of_filter.
Qed.

(** C5: when the owner of an album [A] confirms its deletion, the row of
    [A] and all membership rows of [A] are removed, and the table of photos
    is the same as before; every photo that was a member of [A] is still a
    row, and the page of photos of its owner lists it. *)
Theorem delete_album_keeps_photos (e : env) (owner : uuid) (a : Album.t) (db : database) :
  confirm e = true → db_reachable e = true → NoDup (Album.id <$> albums db) →
  a ∈ albums db → Album.user_id a = owner →
  let (shown, db') := Albums.handleDelete e (Some owner) (Album.id a) db in
  shown = toast_info "Álbum excluído"
  ∧ albums db' = filter (λ x, Album.id x ≠ Album.id a) (albums db)
  ∧ (Album.id a ∉ Album.id <$> albums db')
  ∧ album_photos db' = filter (λ r, AlbumPhoto.album_id r ≠ Album.id a) (album_photos db)
  ∧ (Album.id a ∉ AlbumPhoto.album_id <$> album_photos db')
  ∧ photos db' = photos db
  ∧ (∀ r p, r ∈ album_photos db → AlbumPhoto.album_id r = Album.id a →
            p ∈ photos db → Photo.id p = AlbumPhoto.photo_id r →
            p ∈ photos db'
            ∧ ∃ listed, Home.loadPhotos e (Some (Photo.user_id p)) (Photo.user_id p) db'
                        = Ok listed ∧ p ∈ listed).
Proof.
  intros Hc He Hnd Ha Ho. unfold Albums.handleDelete.
  rewrite Hc, request_reachable by done.
  rewrite (albums_delete_owner owner) by done.
  set (db' := Database _ _ _ _ _).
  repeat split; try done.
  - intros (x & Hid & Hx)%list_elem_of_fmap. by apply list_elem_of_filter in Hx as [Hne _].
  - intros (r & Hid & Hr)%list_elem_of_fmap. by apply list_elem_of_filter in Hr as [Hne _].
  - by apply loadPhotos_elem_of.
Qed.

(** [u1] deletes the album [A] with its three members. *)
Lemma delete_album_keeps_photos_witness :
  let (shown, db') :=
    Albums.handleDelete (Scenario.env_at 30 "g3") (Some "u1") "A" Scenario.db2 in
  shown = toast_info "Álbum excluído"
  ∧ Album.id <$> albums db' = ["B"]
  ∧ album_photos db' = []
  ∧ photos db' = [Scenario.p1; Scenario.p2; Scenario.p3; Scenario.q1].
Proof.
  pose proof (delete_album_keeps_photos (Scenario.env_at 30 "g3") "u1" Scenario.album_A
                Scenario.db2) as H.
  destruct (Albums.handleDelete _ _ _ _) as [shown db'] eqn:Hrun in H |- *.
  destruct H as (Hshown & _ & _ & _ & _ & Hphotos & _).
  - reflexivity.
  - reflexivity.
  - by_computation.
  - by_computation.
  - reflexivity.
  - vm_compute in Hrun. injection Hrun as <- <-.
    split; [exact Hshown|]. split; [reflexivity|]. split; [reflexivity|]. exact Hphotos.
Defined.

(** ** The constraints are kept by every statement *)

Section keys.
Context {A K : Type} (key : A → K).

Lemma NoDup_fmap_filter (P : A → Prop) `{∀ x, Decision (P x)} (l : list A) :
  NoDup (key <$> l) → NoDup (key <$> filter P l).
Proof.
  intros Hnd. eapply sublist_NoDup; [exact Hnd|]. apply fmap_sublist, sublist_filter.
Qed.

(** A reference to a key survives a delete that keeps the row it points to. *)
Lemma elem_of_fmap_filter (P : A → Prop) `{∀ x, Decision (P x)} (l : list A) (k : K) :
  k ∈ key <$> l → (∀ x, x ∈ l → key x = k → P x) → k ∈ key <$> filter P l.
Proof.
  intros (x & -> & Hx)%list_elem_of_fmap HP.
  apply list_elem_of_fmap_2, list_elem_of_filter. split; [|done]. by apply HP.
Qed.

Lemma Forall_filter_keep (P Q : A → Prop) `{∀ x, Decision (P x)} (l : list A) :
  Forall Q l → Forall Q (filter P l).
Proof.
  rewrite !Forall_forall. intros HQ x [_ Hx]%list_elem_of_filter. by apply HQ.
Qed.

Lemma NoDup_fmap_snoc (l : list A) (a : A) :
  NoDup (key <$> l) → key a ∉ key <$> l → NoDup (key <$> l ++ [a]).
Proof.
  intros Hnd Ha. rewrite fmap_app. apply NoDup_app. split; [done|]. split.
  - intros k Hk ->%list_elem_of_singleton. done.
  - apply NoDup_singleton.
Qed.

End keys.

Lemma Forall_elem_of_snoc {A K} (f : A → K) (g : K) (ks : list K) (l : list A) :
  Forall (λ x, f x ∈ ks) l → Forall (λ x, f x ∈ ks ++ [g]) l.
Proof. intros Hl. eapply Forall_impl; [exact Hl|]. intros x Hx. apply elem_of_app. by left. Qed.

Lemma set_null_cover_id gone a : Album.id (set_null_cover gone a) = Album.id a.
Proof.
  unfold set_null_cover. destruct (Album.cover_photo_id a); [|done]. by case_decide.
Qed.

Lemma set_null_cover_user_id gone a : Album.user_id (set_null_cover gone a) = Album.user_id a.
Proof.
  unfold set_null_cover. destruct (Album.cover_photo_id a); [|done]. by case_decide.
Qed.

Lemma set_null_cover_cover gone a c :
  Album.cover_photo_id (set_null_cover gone a) = Some c →
  Album.cover_photo_id a = Some c ∧ c ∉ gone.
Proof.
  unfold set_null_cover. destruct (Album.cover_photo_id a) as [c'|] eqn:Hc; [|by rewrite Hc].
  case_decide; simpl; [done|]. rewrite Hc. by intros [= <-].
Qed.

Lemma auth_users_insert_schema_ok new e db db' :
  schema_ok db → auth_users_insert new e db = Ok db' → schema_ok db'.
Proof.
  intros [] Hrun. unfold auth_users_insert, handle_new_user in Hrun.
  repeat case_decide; simplify_eq/=. split; simpl.
  - by apply NoDup_fmap_snoc.
  - by apply NoDup_fmap_snoc.
  - by apply NoDup_fmap_snoc.
  - apply Forall_app. split.
    + rewrite fmap_app. by apply Forall_elem_of_snoc.
    + by apply Forall_singleton.
  - done.
  - rewrite fmap_app. by apply Forall_elem_of_snoc.
  - done.
  - rewrite fmap_app. by apply Forall_elem_of_snoc.
  - done.
  - done.
  - done.
  - done.
Qed.

Lemma photos_insert_schema_ok auth_uid e user_id url title description db db' :
  schema_ok db → photos_insert auth_uid e user_id url title description db = Ok db' →
  schema_ok db'.
Proof.
  intros [] Hrun. unfold photos_insert in Hrun.
  repeat (case_decide || case_match); simplify_eq/=. split; simpl; try done.
  - by apply NoDup_fmap_snoc.
  - apply Forall_app. split; [done|]. by apply Forall_singleton.
  - eapply Forall_impl; [done|]. intros a Ha. unfold cover_references_photo in *. simpl.
    destruct (Album.cover_photo_id a); [|done]. rewrite fmap_app, elem_of_app. by left.
  - rewrite fmap_app. by apply Forall_elem_of_snoc.
Qed.

Lemma albums_insert_schema_ok auth_uid e user_id name description db db' :
  schema_ok db → albums_insert auth_uid e user_id name description db = Ok db' →
  schema_ok db'.
Proof.
  intros [] Hrun. unfold albums_insert in Hrun.
  repeat (case_decide || case_match); simplify_eq/=. split; simpl; try done.
  - by apply NoDup_fmap_snoc.
  - apply Forall_app. split; [done|]. by apply Forall_singleton.
  - apply Forall_app. split; [done|]. by apply Forall_singleton.
  - rewrite fmap_app. by apply Forall_elem_of_snoc.
Qed.

Lemma profiles_insert_schema_ok auth_uid e user_id display_name avatar_url db db' :
  schema_ok db → profiles_insert auth_uid e user_id display_name avatar_url db = Ok db' →
  schema_ok db'.
Proof.
  intros [] Hrun. unfold profiles_insert in Hrun.
  repeat case_decide; simplify_eq/=. split; simpl; try done.
  - by apply NoDup_fmap_snoc.
  - by apply NoDup_fmap_snoc.
  - apply Forall_app. split; [done|]. by apply Forall_singleton.
Qed.

Lemma albums_update_cover_schema_ok auth_uid album_id cover db db' :
  schema_ok db → albums_update_cover auth_uid album_id cover db = Ok db' → schema_ok db'.
Proof.
  intros [] Hrun. unfold albums_update_cover in Hrun.
  case_decide as Hfk; [|done]. injection Hrun as <-.
  set (upd := λ a, if decide (albums_policy auth_uid a ∧ Album.id a = album_id)
                   then Album.set_cover_photo_id cover a else a).
  assert (Hid : Album.id <$> (upd <$> albums db) = Album.id <$> albums db).
  { rewrite <- list_fmap_compose. apply list_fmap_ext. intros _ a _. unfold upd. simpl.
    by case_decide. }
  split; simpl; try done.
  - by rewrite Hid.
  - apply Forall_fmap. eapply Forall_impl; [exact albums_user_id_fkey0|].
    intros a Ha. unfold compose, upd. by case_decide.
  - apply Forall_fmap. rewrite Forall_forall in *. intros a Ha. unfold compose, upd.
    case_decide as Hhit.
    + by apply (Hfk a Ha).
    + by apply albums_cover_photo_id_fkey0.
  - by rewrite Hid.
Qed.

Lemma photos_delete_schema_ok auth_uid photo_id db db' :
  schema_ok db → photos_delete auth_uid photo_id db = Ok db' → schema_ok db'.
Proof.
  intros [] [= <-]. 
  set (doomed := λ p, photos_policy auth_uid p ∧ Photo.id p = photo_id).
  set (gone := Photo.id <$> filter doomed (photos db)).
  assert (Hkept : ∀ c, c ∈ Photo.id <$> photos db → c ∉ gone →
                       c ∈ Photo.id <$> filter (λ p, ¬ doomed p) (photos db)).
  { intros c Hc Hgone. apply elem_of_fmap_filter; [done|].
    intros x Hx <- Hd. apply Hgone. apply list_elem_of_fmap_2.
    by apply list_elem_of_filter. }
  split; simpl; try done.
  - by apply NoDup_fmap_filter.
  - by apply Forall_filter_keep.
  - rewrite <- list_fmap_compose.
    rewrite (list_fmap_ext _ Album.id (albums db)); [done|].
    intros _ a _. apply set_null_cover_id.
  - apply Forall_fmap. eapply Forall_impl; [exact albums_user_id_fkey0|]. intros a Ha.
    unfold compose. by rewrite set_null_cover_user_id.
  - apply Forall_fmap. eapply Forall_impl; [exact albums_cover_photo_id_fkey0|].
    intros a Ha. unfold compose, cover_references_photo in *. simpl.
    destruct (Album.cover_photo_id (set_null_cover gone a)) as [c|] eqn:Hc; [|done].
    apply set_null_cover_cover in Hc as [Hc Hgone]. rewrite Hc in Ha. by apply Hkept.
  - by apply NoDup_fmap_filter.
  - apply Forall_filter_keep.
    rewrite <- list_fmap_compose.
    rewrite (list_fmap_ext _ Album.id (albums db)); [done|].
    intros _ a _. apply set_null_cover_id.
  - rewrite Forall_forall in *. intros r [Hgone Hr]%list_elem_of_filter.
    apply Hkept; [|done]. by apply album_photos_photo_id_fkey0.
Qed.

Lemma albums_delete_schema_ok auth_uid album_id db db' :
  schema_ok db → albums_delete auth_uid album_id db = Ok db' → schema_ok db'.
Proof.
  intros [] [= <-].
  set (doomed := λ a, albums_policy auth_uid a ∧ Album.id a = album_id).
  set (gone := Album.id <$> filter doomed (albums db)).
  split; simpl; try done.
  - by apply NoDup_fmap_filter.
  - by apply Forall_filter_keep.
  - by apply Forall_filter_keep.
  - by apply NoDup_fmap_filter.
  - rewrite Forall_forall in *. intros r [Hgone Hr]%list_elem_of_filter.
    apply elem_of_fmap_filter; [by apply album_photos_album_id_fkey0|].
    intros x Hx Hid Hd. apply Hgone. rewrite <- Hid. apply list_elem_of_fmap_2.
    by apply list_elem_of_filter.
  - by apply Forall_filter_keep.
Qed.

Lemma album_photos_delete_schema_ok auth_uid album_id photo_id db db' :
  schema_ok db → album_photos_delete auth_uid album_id photo_id db = Ok db' → schema_ok db'.
Proof.
  intros [] [= <-]. split; simpl; try done.
  - by apply NoDup_fmap_filter.
  - by apply Forall_filter_keep.
  - by apply Forall_filter_keep.
Qed.

Lemma profiles_update_schema_ok auth_uid user_id set db db' :
  (∀ p, Profile.id (set p) = Profile.id p ∧ Profile.user_id (set p) = Profile.user_id p) →
  schema_ok db → profiles_update auth_uid user_id set db = Ok db' → schema_ok db'.
Proof.
  intros Hset [] [= <-].
  set (upd := λ p, if decide (profiles_write_policy auth_uid p ∧ Profile.user_id p = user_id)
                   then set p else p).
  assert (Hid : Profile.id <$> (upd <$> profiles db) = Profile.id <$> profiles db).
  { rewrite <- list_fmap_compose. apply list_fmap_ext. intros _ p _. unfold upd. simpl.
    case_decide; [apply Hset|done]. }
  assert (Huid : Profile.user_id <$> (upd <$> profiles db) = Profile.user_id <$> profiles db).
  { rewrite <- list_fmap_compose. apply list_fmap_ext. intros _ p _. unfold upd. simpl.
    case_decide; [apply Hset|done]. }
  split; simpl; try done.
  - by rewrite Hid.
  - by rewrite Huid.
  - apply Forall_fmap. eapply Forall_impl; [exact profiles_user_id_fkey0|].
    intros p Hp. unfold compose, upd.
    case_decide; [|done]. by rewrite (proj2 (Hset p)).
Qed.

(** What a successful run over the rows of an insert leaves behind. *)
Lemma insert_rows_inv auth_uid e rows db db' :
  foldR (album_photos_insert_row auth_uid e) db rows = Ok db' →
  db' = with_album_photos
          (λ t, t ++ ((λ r, AlbumPhoto.mk r.1 r.2 (now e)) <$> rows)) db
  ∧ (NoDup (AlbumPhoto.key <$> album_photos db) → NoDup (AlbumPhoto.key <$> album_photos db')).
Proof.
  revert db. induction rows as [|r rows IH]; intros db Hrun.
  - injection Hrun as <-. split; [|done].
    destruct db. unfold with_album_photos. simpl. by rewrite app_nil_r.
  - rewrite foldR_cons in Hrun. unfold album_photos_insert_row in Hrun.
    repeat case_decide; try done.
    apply IH in Hrun as [-> Hnd]. split.
    + destruct db. unfold with_album_photos. simpl. by rewrite <- app_assoc.
    + intros Hold. apply Hnd. simpl. apply NoDup_fmap_snoc; [done|].
      unfold AlbumPhoto.key at 1. simpl. by destruct r.
Qed.

Lemma album_photos_insert_schema_ok auth_uid e rows db db' :
  schema_ok db → album_photos_insert auth_uid e rows db = Ok db' → schema_ok db'.
Proof.
  intros [] Hrun. rewrite album_photos_insert_eq in Hrun.
  destruct (foldR _ db rows) as [db1|] eqn:Hfold; [|done].
  case_decide as Hfk; [|done]. injection Hrun as <-.
  apply insert_rows_inv in Hfold as [-> Hnd].
  split; simpl; try done.
  - by apply Hnd.
  - apply Forall_app. split; [done|]. apply Forall_fmap.
    eapply Forall_impl; [exact Hfk|]. by intros r [? _].
  - apply Forall_app. split; [done|]. apply Forall_fmap.
    eapply Forall_impl; [exact Hfk|]. by intros r [_ ?].
Qed.

Theorem execute_schema_ok auth_uid e s db db' :
  schema_ok db → execute auth_uid e s db = Ok db' → schema_ok db'.
Proof.
  destruct s; simpl.
  - apply auth_users_insert_schema_ok.
  - apply profiles_insert_schema_ok.
  - by apply profiles_update_schema_ok.
  - by apply profiles_update_schema_ok.
  - apply photos_insert_schema_ok.
  - apply photos_delete_schema_ok.
  - apply albums_insert_schema_ok.
  - apply albums_update_cover_schema_ok.
  - apply albums_delete_schema_ok.
  - apply album_photos_insert_schema_ok.
  - apply album_photos_delete_schema_ok.
Qed.

Lemma apply_statement_schema_ok db c : schema_ok db → schema_ok (apply_statement db c).
Proof.
  intros Hok. unfold apply_statement, request.
  destruct (db_reachable c.1.2); [|done].
  destruct (execute _ _ _ db) eqn:Hrun; [|done]. by eapply execute_schema_ok.
Qed.

Lemma run_schema_ok log db : schema_ok db → schema_ok (run log db).
Proof.
  revert db. induction log as [|c log IH]; intros db Hok; [done|].
  simpl. apply IH. by apply apply_statement_schema_ok.
Qed.

Lemma empty_database_schema_ok : schema_ok empty_database.
Proof. split; simpl; constructor. Qed.

(** No statement removes a user or a profile: the ids in [auth.users] and
    the [user_id]s in [profiles] stay. *)
Lemma execute_keeps_users auth_uid e s db db' u :
  execute auth_uid e s db = Ok db' →
  (u ∈ AuthUser.id <$> auth_users db → u ∈ AuthUser.id <$> auth_users db')
  ∧ (u ∈ Profile.user_id <$> profiles db → u ∈ Profile.user_id <$> profiles db').
Proof.
  destruct s; simpl.
  - unfold auth_users_insert, handle_new_user. intros Hrun.
    repeat case_decide; simplify_eq/=.
    rewrite !fmap_app, !elem_of_app. tauto.
  - unfold profiles_insert. intros Hrun. repeat case_decide; simplify_eq/=.
    rewrite !fmap_app, !elem_of_app. tauto.
  - unfold profiles_update. intros [= <-]. simpl. split; [done|].
    rewrite <- list_fmap_compose.
    intros (p & -> & Hp)%list_elem_of_fmap. apply list_elem_of_fmap. exists p. split; [|done].
    simpl. by case_decide.
  - unfold profiles_update. intros [= <-]. simpl. split; [done|].
    rewrite <- list_fmap_compose.
    intros (p & -> & Hp)%list_elem_of_fmap. apply list_elem_of_fmap. exists p. split; [|done].
    simpl. by case_decide.
  - unfold photos_insert. intros Hrun. repeat (case_decide || case_match); by simplify_eq/=.
  - unfold photos_delete. by intros [= <-].
  - unfold albums_insert. intros Hrun. repeat (case_decide || case_match); by simplify_eq/=.
  - unfold albums_update_cover. intros Hrun. case_decide; by simplify_eq/=.
  - unfold albums_delete. by intros [= <-].
  - rewrite album_photos_insert_eq. intros Hrun.
    destruct (foldR _ db rows) as [db1|] eqn:Hfold; [|done].
    case_decide; [|done]. simplify_eq. by apply insert_rows_inv in Hfold as [-> _].
  - unfold album_photos_delete. by intros [= <-].
Qed.

Lemma run_keeps_users log db u :
  (u ∈ AuthUser.id <$> auth_users db → u ∈ AuthUser.id <$> auth_users (run log db))
  ∧ (u ∈ Profile.user_id <$> profiles db → u ∈ Profile.user_id <$> profiles (run log db)).
Proof.
  revert db. induction log as [|c log IH]; intros db; [done|].
  simpl. specialize (IH (apply_statement db c)).
  unfold apply_statement, request in *.
  destruct (db_reachable c.1.2); [|done].
  destruct (execute _ _ _ db) eqn:Hrun; [|done].
  apply (execute_keeps_users _ _ _ _ _ u) in Hrun. tauto.
Qed.

Lemma filter_by_key {A K} `{EqDecision K} (key : A → K) (l : list A) (k : K) :
  NoDup (key <$> l) → k ∈ key <$> l → ∃ a, filter (λ x, key x = k) l = [a] ∧ key a = k.
Proof.
  intros Hnd (a & -> & Ha)%list_elem_of_fmap. exists a. split; [|done].
  rewrite (filter_equiv _ (λ x, key x = key a ∧ True)) by (intros; tauto).
  by apply (filter_key key).
Qed.

(** What each handler does to the database is one statement, or nothing. *)
Lemma handlers_are_statements e auth_uid db :
  (∀ photoId photoUrl bucket,
     (Home.handleDelete e auth_uid photoId photoUrl db bucket).1.2
     = if confirm e then apply_statement db (auth_uid, e, delete_photos photoId) else db)
  ∧ (∀ user name description,
       (Albums.handleCreate e auth_uid (Some user) name description db).2
       = apply_statement db (auth_uid, e, insert_albums user (Some name) (or_null description)))
  ∧ (∀ albumId,
       (Albums.handleDelete e auth_uid albumId db).2
       = if confirm e then apply_statement db (auth_uid, e, delete_albums albumId) else db)
  ∧ (∀ id p S,
       (AlbumDetail.handleAddPhotos e auth_uid (Some id) (p :: S) db).2
       = apply_statement db (auth_uid, e, insert_album_photos ((λ x, (id, x)) <$> p :: S)))
  ∧ (∀ id photoId,
       (AlbumDetail.handleRemovePhoto e auth_uid (Some id) photoId db).2
       = apply_statement db (auth_uid, e, delete_album_photos id photoId))
  ∧ (∀ user displayName avatarUrl,
       (ProfilePage.handleSave e auth_uid (Some user) displayName avatarUrl db).2
       = apply_statement db (auth_uid, e, update_profiles_fields user displayName avatarUrl)).
Proof.
  repeat split; intros; unfold apply_statement; cbn [fst snd execute].
  - rewrite handleDelete_photo_eq. destruct (confirm e); [|done]. cbv zeta.
    by destruct (request e _).
  - unfold Albums.handleCreate. by destruct (request e _).
  - unfold Albums.handleDelete. destruct (confirm e); [|done]. by destruct (request e _).
  - rewrite handleAddPhotos_cons. by destruct (request e _).
  - unfold AlbumDetail.handleRemovePhoto. by destruct (request e _).
  - unfold ProfilePage.handleSave. by destruct (request e _).
Qed.

(** ** The profile of a new user *)

Lemma auth_users_insert_new e new db :
  AuthUser.id new ∉ AuthUser.id <$> auth_users db →
  AuthUser.id new ∉ Profile.user_id <$> profiles db →
  gen_random_uuid e ∉ Profile.id <$> profiles db →
  auth_users_insert new e db
  = Ok (Database (auth_users db ++ [new])
          (profiles db ++ [Profile.mk (gen_random_uuid e) (AuthUser.id new) (AuthUser.email new)
                             None (now e)])
          (photos db) (albums db) (album_photos db)).
Proof.
  intros Hnew Hnone Hfresh. unfold auth_users_insert, handle_new_user.
  rewrite decide_False by done. simpl.
  rewrite decide_False by done. rewrite decide_False by done.
  rewrite decide_True; [done|].
  rewrite fmap_app, elem_of_app. right. apply list_elem_of_here.
Qed.

(** C6: the creation of an account with a new identity [new] creates, in
    the same transaction, one profile row with [user_id = new.id],
    [display_name = new.email] and a null [avatar_url]. Signing in
    afterwards gives the session and changes nothing; creating an account
    for the same identity again is refused, now and after any further
    statements; and after any further statements [user_id] is still unique
    in [profiles] and exactly one profile row has [user_id = new.id]. *)
Theorem signup_creates_the_one_profile (e : env) (new : AuthUser.t) (db : database) :
  schema_ok db →
  AuthUser.id new ∉ AuthUser.id <$> auth_users db →
  gen_random_uuid e ∉ Profile.id <$> profiles db →
  ∃ db',
    auth_users_insert new e db = Ok db'
    ∧ profiles db'
      = profiles db ++ [Profile.mk (gen_random_uuid e) (AuthUser.id new) (AuthUser.email new)
                          None (now e)]
    ∧ filter (λ p, Profile.user_id p = AuthUser.id new) (profiles db')
      = [Profile.mk (gen_random_uuid e) (AuthUser.id new) (AuthUser.email new) None (now e)]
    ∧ auth_sign_in (AuthUser.id new) db' = (Some (AuthUser.id new), db')
    ∧ ∀ log,
        let db'' := run log db' in
        NoDup (Profile.user_id <$> profiles db'')
        ∧ (∃ p, filter (λ p, Profile.user_id p = AuthUser.id new) (profiles db'') = [p])
        ∧ (auth_sign_in (AuthUser.id new) db'').2 = db''
        ∧ ∀ e' new', AuthUser.id new' = AuthUser.id new →
                     auth_users_insert new' e' db'' = Err unique_violation.
Proof.
  intros Hok Hnew Hfresh.
  assert (Hnone : AuthUser.id new ∉ Profile.user_id <$> profiles db).
  { intros (p & Hid & Hp)%list_elem_of_fmap. apply Hnew. rewrite Hid.
    pose proof (profiles_user_id_fkey _ Hok) as Hfk. rewrite Forall_forall in Hfk. by apply Hfk. }
  eexists. split; [by apply auth_users_insert_new|].
  set (row := Profile.mk _ _ _ _ _). set (db' := Database _ _ _ _ _).
  assert (Hok' : schema_ok db').
  { eapply auth_users_insert_schema_ok; [exact Hok|]. by apply auth_users_insert_new. }
  assert (Huser : AuthUser.id new ∈ AuthUser.id <$> auth_users db').
  { simpl. rewrite fmap_app, elem_of_app. right. apply list_elem_of_here. }
  assert (Hprofile : AuthUser.id new ∈ Profile.user_id <$> profiles db').
  { simpl. rewrite fmap_app, elem_of_app. right. apply list_elem_of_here. }
  split; [done|]. split; [|split].
  - simpl. rewrite filter_app, filter_none, filter_cons_True by done || by
      (apply Forall_forall; intros p Hp Hid; apply Hnone; rewrite <- Hid;
       by apply list_elem_of_fmap_2).
    done.
  - unfold auth_sign_in. by rewrite decide_True.
  - intros log db''.
    pose proof (run_schema_ok log db' Hok') as Hok''.
    destruct (run_keeps_users log db' (AuthUser.id new)) as [Hu Hp].
    split; [apply Hok''|]. split; [|split].
    + destruct (filter_by_key Profile.user_id (profiles db'') (AuthUser.id new)) as (p & Hp' & _);
        [apply Hok''|by apply Hp|]. by exists p.
    + done.
    + intros e' new' Hid. unfold auth_users_insert. rewrite decide_True; [done|].
      rewrite Hid. by apply Hu.
Qed.

(** A third user signs up. *)
Lemma signup_creates_the_one_profile_witness :
  ∃ db',
    auth_users_insert (AuthUser.mk "u3" (Some "u3@example.org")) (Scenario.env_at 40 "r3")
      Scenario.db2 = Ok db'
    ∧ filter (λ p, Profile.user_id p = "u3") (profiles db')
      = [Profile.mk "r3" "u3" (Some "u3@example.org") None 40].
Proof.
  destruct (signup_creates_the_one_profile (Scenario.env_at 40 "r3")
              (AuthUser.mk "u3" (Some "u3@example.org")) Scenario.db2)
    as (db' & Hrun & _ & Hone & _).
  - apply schema_check_ok. vm_compute. reflexivity.
  - by_computation.
  - by_computation.
  - exists db'. split; [exact Hrun|exact Hone].
Defined.

(** ** The order of the photos of an album *)

Lemma omap_cons_eq {A B} (f : A → option B) (a : A) (l : list A) :
  omap f (a :: l) = match f a with Some b => b :: omap f l | None => omap f l end.
Proof. done. Qed.

Lemma omap_filter_fmap {A B} (g : A → A) (P : A → Prop) `{∀ x, Decision (P x)}
    (f : A → option B) (l : list A) :
  (∀ x, P (g x) ↔ P x) → (∀ x, f (g x) = f x) →
  omap f (filter P (g <$> l)) = omap f (filter P l).
Proof.
  intros HP Hf. induction l as [|a l IH]; [done|].
  rewrite fmap_cons, !filter_cons.
  destruct (decide (P (g a))) as [Hga|Hga], (decide (P a)) as [Ha|Ha].
  - by rewrite !omap_cons_eq, Hf, IH.
  - destruct Ha. by apply HP.
  - destruct Hga. by apply HP.
  - exact IH.
Qed.

Lemma listAlbumPhotos_eq e auth_uid A db :
  db_reachable e = true →
  AlbumDetail.listAlbumPhotos e auth_uid A db
  = omap (λ ap, AlbumDetail.columns <$> embedded_photo auth_uid db ap)
      (filter (λ r, AlbumPhoto.album_id r = A ∧ album_photos_policy auth_uid db (AlbumPhoto.album_id r))
         (album_photos db)).
Proof.
  intros He. unfold AlbumDetail.listAlbumPhotos, album_photos_select.
  by rewrite request_reachable, list_filter_filter.
Qed.

(** The listing does not look at [added_at]. *)
Lemma listAlbumPhotos_with_added_at e auth_uid A f db :
  AlbumDetail.listAlbumPhotos e auth_uid A (with_added_at f db)
  = AlbumDetail.listAlbumPhotos e auth_uid A db.
Proof.
  unfold AlbumDetail.listAlbumPhotos, request.
  destruct (db_reachable e); [|done].
  unfold album_photos_select. rewrite !list_filter_filter. simpl.
  by apply omap_filter_fmap.
Qed.

(** The rows of a [handleAddPhotos] with photos of the owner, as listed. *)
Lemma new_album_photos_listed owner a S e' db :
  NoDup (Photo.id <$> photos db) → a ∈ albums db → Album.user_id a = owner →
  Forall (λ p, p ∈ Photo.id <$> filter (λ q, Photo.user_id q = owner) (photos db)) S →
  AlbumDetail.id <$>
    omap (λ ap, AlbumDetail.columns <$> embedded_photo (Some owner) db ap)
      (filter (λ r, AlbumPhoto.album_id r = Album.id a
                    ∧ album_photos_policy (Some owner) db (AlbumPhoto.album_id r))
         (new_album_photos e' (Album.id a) S))
  = S.
Proof.
  intros Hnd Ha Ho. induction S as [|p S IH]; intros HS; [done|].
  apply Forall_cons in HS as [Hp HS].
  apply list_elem_of_fmap in Hp as (q & -> & [Hq Hin]%list_elem_of_filter).
  unfold new_album_photos in *. rewrite fmap_cons, filter_cons_True.
  - rewrite omap_cons_eq, (embedded_photo_visible _ _ _ q); try done.
    + cbn [fmap option_fmap option_map]. rewrite fmap_cons. f_equal. by apply IH.
    + unfold photos_policy, owns. by rewrite Hq.
  - split; [done|]. simpl. by apply album_photos_policy_owner.
Qed.

(** Rows that are appended are listed after the rows that were there. *)
Lemma listAlbumPhotos_app e owner a S e' db :
  db_reachable e = true → NoDup (Photo.id <$> photos db) →
  a ∈ albums db → Album.user_id a = owner →
  Forall (λ p, p ∈ Photo.id <$> filter (λ q, Photo.user_id q = owner) (photos db)) S →
  AlbumDetail.id <$> AlbumDetail.listAlbumPhotos e (Some owner) (Album.id a)
                       (with_album_photos (λ t, t ++ new_album_photos e' (Album.id a) S) db)
  = (AlbumDetail.id <$> AlbumDetail.listAlbumPhotos e (Some owner) (Album.id a) db) ++ S.
Proof.
  intros He Hnd Ha Ho HS. rewrite !listAlbumPhotos_eq by done.
  change (AlbumDetail.id <$>
            omap (λ ap, AlbumDetail.columns <$> embedded_photo (Some owner) db ap)
              (filter (λ r, AlbumPhoto.album_id r = Album.id a
                            ∧ album_photos_policy (Some owner) db (AlbumPhoto.album_id r))
                 (album_photos db ++ new_album_photos e' (Album.id a) S))
          = (AlbumDetail.id <$>
               omap (λ ap, AlbumDetail.columns <$> embedded_photo (Some owner) db ap)
                 (filter (λ r, AlbumPhoto.album_id r = Album.id a
                               ∧ album_photos_policy (Some owner) db (AlbumPhoto.album_id r))
                    (album_photos db))) ++ S).
  rewrite filter_app, omap_app, fmap_app. f_equal.
  by apply new_album_photos_listed.
Qed.

(** C7, as the code has it: the page of an album lists exactly the member
    photos its owner may see, in the stored order of the membership rows.
    The query asks for no order and [added_at] plays no part in it; the
    photos of the owner that [handleAddPhotos] adds are listed after those
    that were members before, so that the photo added last is listed last. *)
Theorem album_photos_listed_in_stored_order (e : env) (owner : uuid) (a : Album.t) (db : database) :
  db_reachable e = true → NoDup (Photo.id <$> photos db) →
  a ∈ albums db → Album.user_id a = owner →
  (∀ p, p ∈ AlbumDetail.listAlbumPhotos e (Some owner) (Album.id a) db
        ↔ ∃ r q, r ∈ album_photos db ∧ AlbumPhoto.album_id r = Album.id a
                 ∧ q ∈ photos db ∧ Photo.id q = AlbumPhoto.photo_id r
                 ∧ Photo.user_id q = owner ∧ p = AlbumDetail.columns q)
  ∧ (∀ f, AlbumDetail.listAlbumPhotos e (Some owner) (Album.id a) (with_added_at f db)
          = AlbumDetail.listAlbumPhotos e (Some owner) (Album.id a) db)
  ∧ (∀ e' S,
       db_reachable e' = true → S ≠ [] → NoDup S →
       Forall (λ p, p ∈ Photo.id <$> filter (λ q, Photo.user_id q = owner) (photos db)
                    ∧ (Album.id a, p) ∉ AlbumPhoto.key <$> album_photos db) S →
       AlbumDetail.id <$> AlbumDetail.listAlbumPhotos e (Some owner) (Album.id a)
                            (AlbumDetail.handleAddPhotos e' (Some owner) (Some (Album.id a)) S db).2
       = (AlbumDetail.id <$> AlbumDetail.listAlbumPhotos e (Some owner) (Album.id a) db) ++ S).
Proof.
  intros He Hnd Ha Ho. split; [|split].
  - intros p. split.
    + intros (r & q & ? & ? & ? & ? & Hpol & ->)%elem_of_listAlbumPhotos.
      exists r, q. unfold photos_policy, owns in Hpol. by simplify_eq.
    + intros (r & q & ? & ? & ? & ? & ? & ->). by eapply listAlbumPhotos_elem_of.
  - intros f. apply listAlbumPhotos_with_added_at.
  - intros e' S He' HS HSnd Hnew.
    rewrite (handleAddPhotos_new e' owner a S db); try done.
    + simpl. apply listAlbumPhotos_app; try done.
      eapply Forall_impl; [exact Hnew|]. by intros p [? _].
    + eapply Forall_impl; [exact Hnew|]. intros p [Hp ?]. split; [|done].
      apply list_elem_of_fmap in Hp as (q & -> & [_ Hq]%list_elem_of_filter).
      by apply list_elem_of_fmap_2.
Qed.

(** [p3], added to [A] after [p1] and [p2], is listed after them. *)
Lemma album_photos_listed_in_stored_order_witness :
  AlbumDetail.id <$> AlbumDetail.listAlbumPhotos (Scenario.env_at 30 "g3") (Some "u1") "A"
                       Scenario.db2
  = (AlbumDetail.id <$> AlbumDetail.listAlbumPhotos (Scenario.env_at 30 "g3") (Some "u1") "A"
                          Scenario.db1) ++ ["p3"].
Proof.
  destruct (album_photos_listed_in_stored_order (Scenario.env_at 30 "g3") "u1" Scenario.album_A
              Scenario.db1) as (_ & _ & Happ).
  - reflexivity.
  - by_computation.
  - by_computation.
  - reflexivity.
  - apply (Happ (Scenario.env_at 20 "g2") ["p3"]).
    + reflexivity.
    + discriminate.
    + by_computation.
    + by_computation.
Defined.

(** C7, as the specification words it, fails: [p1] and [p2] were added to [A]
    at time 10 and [p3] at time 20; the page lists [p1], [p2], [p3], with the
    photo added last in the last place, where the order of the specification
    puts it first. *)
Lemma album_photos_not_most_recent_first :
  let listed := AlbumDetail.listAlbumPhotos (Scenario.env_at 30 "g3") (Some "u1") "A" Scenario.db2 in
  album_photos Scenario.db2
  = [AlbumPhoto.mk "A" "p1" 10; AlbumPhoto.mk "A" "p2" 10; AlbumPhoto.mk "A" "p3" 20]
  ∧ AlbumDetail.id <$> listed = ["p1"; "p2"; "p3"]
  ∧ AlbumDetail.id <$> head listed = Some "p1"
  ∧ AlbumDetail.id <$> head (Spec.listAlbumPhotos (Scenario.env_at 30 "g3") (Some "u1") "A"
                               Scenario.db2) = Some "p3"
  ∧ listed ≠ Spec.listAlbumPhotos (Scenario.env_at 30 "g3") (Some "u1") "A" Scenario.db2.
Proof. vm_compute. repeat split; done. Qed.

(** ** The list of albums and their covers *)

Lemma album_photos_policy_with_covers auth_uid f db album_id :
  album_photos_policy auth_uid (with_covers f db) album_id
  ↔ album_photos_policy auth_uid db album_id.
Proof.
  unfold album_photos_policy, with_covers. simpl. rewrite Exists_fmap. done.
Qed.

(** The urls of an album card do not look at [cover_photo_id]. *)
Lemma embedded_urls_with_covers auth_uid f c db a :
  Albums.embedded_urls auth_uid (with_covers f db) (Album.set_cover_photo_id c a)
  = Albums.embedded_urls auth_uid db a.
Proof.
  unfold Albums.embedded_urls, album_photos_select. f_equal.
  rewrite !list_filter_filter. apply filter_equiv. intros r _.
  by rewrite album_photos_policy_with_covers.
Qed.

Lemma loadAlbums_eq e auth_uid userId db :
  db_reachable e = true →
  Albums.loadAlbums e auth_uid userId db
  = Ok ((λ album, Albums.mkAlbum album (Albums.embedded_urls auth_uid db album))
          <$> merge_sort (newest_first Album.created_at)
                (filter (λ a, Album.user_id a = userId) (albums_select auth_uid db))).
Proof. intros He. unfold Albums.loadAlbums. by rewrite request_reachable. Qed.

Lemma rows_of_cards (urls : Album.t → list string) (l : list Album.t) :
  Albums.row <$> ((λ album, Albums.mkAlbum album (urls album)) <$> l) = l.
Proof. induction l as [|a l IH]; [done|]. rewrite !fmap_cons. simpl. by f_equal. Qed.

Lemma own_albums_select owner db :
  filter (λ a, Album.user_id a = owner) (albums_select (Some owner) db)
  = filter (λ a, Album.user_id a = owner) (albums db).
Proof.
  unfold albums_select. rewrite list_filter_filter. apply filter_equiv.
  intros a _. unfold albums_policy, owns. split; [tauto|]. intros ->. done.
Qed.

(** C8, as the code has it: the page of albums lists all albums of the
    owner, the one created last first; the image of a card is the url of the
    first member photo the owner may see, in the stored order of the
    membership rows, and there is none when the album has no such photo.
    [cover_photo_id] is not looked at: with other values in that column the
    urls and the image of every card are the same. *)
Theorem albums_listed_with_first_member (e : env) (owner : uuid) (db : database) :
  db_reachable e = true →
  ∃ listed,
    Albums.loadAlbums e (Some owner) owner db = Ok listed
    ∧ Albums.row <$> listed ≡ₚ filter (λ a, Album.user_id a = owner) (albums db)
    ∧ StronglySorted (newest_first Album.created_at) (Albums.row <$> listed)
    ∧ Forall (λ album,
                Albums.photos album = Albums.embedded_urls (Some owner) db (Albums.row album)
                ∧ Albums.cover album = head (Albums.embedded_urls (Some owner) db (Albums.row album))
                ∧ (Albums.cover album = None ↔ Albums.count album = 0%nat)) listed
    ∧ (∀ f c a, Albums.embedded_urls (Some owner) (with_covers f db) (Album.set_cover_photo_id c a)
                = Albums.embedded_urls (Some owner) db a).
Proof.
  intros He. eexists. split; [by apply loadAlbums_eq|].
  rewrite rows_of_cards, own_albums_select.
  split; [apply merge_sort_Permutation|]. split; [apply StronglySorted_merge_sort; apply _|].
  split.
  - apply Forall_fmap, Forall_forall. intros a _. unfold compose, Albums.cover, Albums.count.
    simpl. split; [done|]. split; [done|].
    by destruct (Albums.embedded_urls (Some owner) db a).
  - intros f c a. apply embedded_urls_with_covers.
Qed.

(** The card of [A], whose cover is set to [p3], shows [p1]. *)
Lemma albums_listed_with_first_member_witness :
  ∃ listed,
    Albums.loadAlbums (Scenario.env_at 30 "g3") (Some "u1") "u1" Scenario.db2_cover = Ok listed
    ∧ Album.id <$> (Albums.row <$> listed) = ["A"]
    ∧ Albums.cover <$> listed = [Some (Photo.url Scenario.p1)].
Proof.
  destruct (albums_listed_with_first_member (Scenario.env_at 30 "g3") "u1" Scenario.db2_cover)
    as (listed & Hrun & _).
  - reflexivity.
  - exists listed. split; [exact Hrun|].
    vm_compute in Hrun. injection Hrun as <-. split; reflexivity.
Defined.

(** C8, as the specification words it, fails: the cover of [A] is set to [p3], a
    member and the photo added last, and the card of [A] shows [p1]. *)
Lemma album_cover_not_cover_photo_id :
  ∃ card,
    Albums.loadAlbums (Scenario.env_at 30 "g3") (Some "u1") "u1" Scenario.db2_cover = Ok [card]
    ∧ Album.id (Albums.row card) = "A"
    ∧ Album.cover_photo_id (Albums.row card) = Some "p3"
    ∧ Albums.cover card = Some (Photo.url Scenario.p1)
    ∧ Spec.cover (Some "u1") Scenario.db2_cover (Albums.row card)
      = Some (Photo.url Scenario.p3)
    ∧ Albums.cover card ≠ Spec.cover (Some "u1") Scenario.db2_cover (Albums.row card).
Proof. eexists. vm_compute. repeat split; done. Qed.

(** ** The name of a new album *)

Lemma albums_insert_named e user name description db :
  user ∈ AuthUser.id <$> auth_users db → gen_random_uuid e ∉ Album.id <$> albums db →
  albums_insert (Some user) e user (Some name) description db
  = Ok (with_albums
          (λ t, t ++ [Album.mk (gen_random_uuid e) user name description None (now e)]) db).
Proof.
  intros Huser Hfresh. unfold albums_insert.
  rewrite decide_True by done. rewrite decide_False by done. by rewrite decide_True.
Qed.

(** C9, as the code has it: [handleCreate] puts the name of the form into
    the insert as it is, and the table refuses only a null name. For a
    signed-in user and a fresh id, an album row with the given name is
    created whatever the name, the empty name included. What keeps an empty
    name out is the form: its name input is required, so that submitting it
    with an empty name does not run [handleCreate], creates no row and shows
    no error; with any other name, submitting is [handleCreate]. *)
Theorem create_album_name_as_given (e : env) (user : uuid) (name description : string) (db : database) :
  db_reachable e = true →
  user ∈ AuthUser.id <$> auth_users db →
  gen_random_uuid e ∉ Album.id <$> albums db →
  Albums.handleCreate e (Some user) (Some user) name description db
    = (toast_info "Álbum criado!",
       with_albums
         (λ t, t ++ [Album.mk (gen_random_uuid e) user name (or_null description) None (now e)])
         db)
  ∧ Albums.submit e (Some user) (Some user) "" description db = (no_toast, db)
  ∧ (name ≠ "" →
     Albums.submit e (Some user) (Some user) name description db
     = Albums.handleCreate e (Some user) (Some user) name description db)
  ∧ albums_insert (Some user) e user None (or_null description) db = Err not_null_violation.
Proof.
  intros He Huser Hfresh. split; [|split; [|split]].
  - unfold Albums.handleCreate. by rewrite request_reachable, albums_insert_named.
  - done.
  - intros Hname. unfold Albums.submit. by rewrite decide_False.
  - unfold albums_insert. by rewrite decide_True.
Qed.

(** [u1] creates the album "Lisboa". *)
Lemma create_album_name_as_given_witness :
  Albums.handleCreate (Scenario.env_at 30 "C") (Some "u1") (Some "u1") "Lisboa" "" Scenario.db0
  = (toast_info "Álbum criado!",
     with_albums (λ t, t ++ [Album.mk "C" "u1" "Lisboa" None None 30]) Scenario.db0).
Proof.
  destruct (create_album_name_as_given (Scenario.env_at 30 "C") "u1" "Lisboa" "" Scenario.db0)
    as [Hrun _].
  - reflexivity.
  - by_computation.
  - by_computation.
  - exact Hrun.
Defined.

(** C9, as the specification words it, fails: [handleCreate] with an empty
    name shows the success message and the album row with the empty name is in
    the table. *)
Lemma create_album_empty_name_accepted :
  let (shown, db) :=
    Albums.handleCreate (Scenario.env_at 30 "C") (Some "u1") (Some "u1") "" "" Scenario.db0 in
  shown = toast_info "Álbum criado!"
  ∧ albums db = albums Scenario.db0 ++ [Album.mk "C" "u1" "" None None 30].
Proof. vm_compute. split; done. Qed.

(** ** Every state the pages can reach *)

Theorem reachable_schema_ok (log : list (option uuid * env * statement)) :
  schema_ok (run log empty_database).
Proof. apply run_schema_ok, empty_database_schema_ok. Qed.

(** The walk through of the specification: an empty album "Trip", one photo
    [P1], added to the album, is the one photo listed and nothing is left
    to pick; once [P1] is deleted the album lists no photo. *)
Example trip_walk_through :
  Scenario.trip_page Scenario.trip1 = Some ([], [])
  ∧ Scenario.trip_page Scenario.trip2 = Some ([], ["P1"])
  ∧ Scenario.trip_page Scenario.trip3 = Some (["P1"], [])
  ∧ Scenario.trip_page Scenario.trip4 = Some ([], [])
  ∧ album_photos Scenario.trip4 = [].
Proof. vm_compute. repeat split; reflexivity. Qed.

(** * Further properties of the pages *)

(** ** Strings: where a separator is found *)

Lemma string_app_cons (c : Ascii.ascii) (x y : string) :
  String c x +:+ y = String c (x +:+ y).
Proof. done. Qed.

Lemma string_app_assoc (x y z : string) : (x +:+ y) +:+ z = x +:+ (y +:+ z).
Proof. induction x as [|c x IH]; [done|]. rewrite !string_app_cons. by f_equal. Qed.

Lemma string_app_nil_r (x : string) : x +:+ "" = x.
Proof. induction x as [|c x IH]; [done|]. rewrite string_app_cons. by f_equal. Qed.

Lemma string_length_app (x y : string) :
  String.length (x +:+ y) = (String.length x + String.length y)%nat.
Proof. induction x as [|c x IH]; [done|]. rewrite string_app_cons. simpl. by f_equal. Qed.

Lemma substring_app_l (x y : string) (i k : nat) :
  (i + k ≤ String.length x)%nat →
  String.substring i k (x +:+ y) = String.substring i k x.
Proof.
  revert i k. induction x as [|c x IH]; intros i k Hik.
  - simpl in Hik. assert (i = 0%nat) as -> by lia. assert (k = 0%nat) as -> by lia.
    by destruct y.
  - rewrite string_app_cons. destruct i as [|i].
    + destruct k as [|k]; [done|]. simpl. rewrite IH; [done|]. simpl in Hik. lia.
    + simpl. apply IH. simpl in Hik. lia.
Qed.

Lemma substring_app_r (x y : string) (k : nat) :
  String.substring (String.length x) k (x +:+ y) = String.substring 0 k y.
Proof. induction x as [|c x IH]; [done|]. rewrite string_app_cons. exact IH. Qed.

Lemma substring_all (s : string) : String.substring 0 (String.length s) s = s.
Proof. induction s as [|c s IH]; [done|]. simpl. by f_equal. Qed.

Lemma substring_prefix (x y : string) :
  String.substring 0 (String.length x) (x +:+ y) = x.
Proof. rewrite substring_app_l by lia. apply substring_all. Qed.

(** The first occurrence of a separator: it is where the separator stands
    when what comes before it, with the separator less its last character
    put after, does not hold one. *)
Lemma index_first_separator (sep' : string) (c : Ascii.ascii) (a b : string) :
  String.index 0 (sep' +:+ String c "") (a +:+ sep') = None →
  String.index 0 (sep' +:+ String c "") (a +:+ (sep' +:+ String c "") +:+ b)
  = Some (String.length a).
Proof.
  set (sep := sep' +:+ String c ""). intros Hnone.
  assert (Hsep : sep ≠ "") by (unfold sep; by destruct sep').
  assert (Hat : String.substring (String.length a) (String.length sep) (a +:+ sep +:+ b) = sep).
  { by rewrite substring_app_r, substring_prefix. }
  assert (Hbefore : ∀ m, (m < String.length a)%nat →
            String.substring m (String.length sep) (a +:+ sep +:+ b) ≠ sep).
  { intros m Hm.
    replace (a +:+ sep +:+ b) with ((a +:+ sep') +:+ (String c "" +:+ b))
      by (unfold sep; by rewrite !string_app_assoc).
    rewrite substring_app_l.
    - apply (String.index_correct3 0 m _ _ Hnone Hsep). lia.
    - unfold sep. rewrite !string_length_app. simpl. lia. }
  destruct (String.index 0 sep (a +:+ sep +:+ b)) as [m|] eqn:Hi.
  - f_equal. pose proof (String.index_correct1 _ _ _ _ Hi) as Hm.
    pose proof (String.index_correct2 _ _ _ _ Hi (String.length a)) as Hmin.
    destruct (decide (m < String.length a)%nat) as [Hlt|Hge]; [by apply Hbefore in Hlt|].
    destruct (decide (String.length a < m)%nat) as [Hgt|]; [|lia].
    exfalso. apply Hmin; [lia|done|done].
  - exfalso. by apply (String.index_correct3 0 (String.length a) _ _ Hi Hsep); [lia|].
Qed.

(** The folder of an object that is named after a user. *)
Lemma foldername_1_own (uid rest : string) :
  String.index 0 "/" uid = None → foldername_1 (uid +:+ "/" +:+ rest) = Some uid.
Proof.
  intros Hnone. unfold foldername_1.
  pose proof (index_first_separator "" "/"%char uid rest) as Hi.
  change ("" +:+ String "/"%char "") with "/" in Hi.
  rewrite string_app_nil_r in Hi. rewrite (Hi Hnone).
  simpl. by rewrite substring_prefix.
Qed.


(** ** The extension of a file name *)

Lemma after_last_spec (c : Ascii.ascii) (s : string) :
  match after_last c s with
  | Some r => (∃ pre, s = pre +:+ String c r) ∧ c ∉ String.list_ascii_of_string r
  | None => c ∉ String.list_ascii_of_string s
  end.
Proof.
  induction s as [|x s IH]; simpl; [apply not_elem_of_nil|].
  destruct (after_last c s) as [r|].
  - destruct IH as [[pre ->] Hr]. split; [|done]. by exists (String x pre).
  - case_decide as Hx.
    + subst x. split; [|done]. by exists "".
    + apply not_elem_of_cons. by split.
Qed.

(** What [handleUpload] and [handleAvatarUpload] take for the extension of a
    file: it has no dot; it is what follows the last dot of the name, and
    it is the whole name when the name has no dot. *)
Theorem file_ext_last_segment (name : string) :
  ("."%char ∉ String.list_ascii_of_string (file_ext name))
  ∧ ((("."%char ∉ String.list_ascii_of_string name) ∧ file_ext name = name)
     ∨ (∃ pre, name = pre +:+ "." +:+ file_ext name)).
Proof.
  unfold file_ext. pose proof (after_last_spec "."%char name) as H.
  destruct (after_last "."%char name) as [r|]; simpl.
  - destruct H as [[pre ->] Hr]. split; [done|]. right. by exists pre.
  - split; [done|]. by left.
Qed.

(** ** Removing a photo from an album *)

Lemma handleRemovePhoto_eq e auth_uid A photoId db :
  AlbumDetail.handleRemovePhoto e auth_uid (Some A) photoId db
  = match request e (album_photos_delete auth_uid A photoId db) with
    | Err error => (toast_error "Erro ao remover foto" error, db)
    | Ok db' => (toast_info "Foto removida", db')
    end.
Proof. done. Qed.

Lemma album_photos_delete_owner owner a photoId db :
  a ∈ albums db → Album.user_id a = owner →
  album_photos_delete (Some owner) (Album.id a) photoId db
  = Ok (with_album_photos (filter (λ r, AlbumPhoto.key r ≠ (Album.id a, photoId))) db).
Proof.
  intros Ha Ho. unfold album_photos_delete, with_album_photos. do 2 f_equal.
  apply filter_equiv. intros r _. unfold AlbumPhoto.key. split.
  - intros Hkeep [= HA Hp]. apply Hkeep. split; [|done].
    rewrite HA. by apply album_photos_policy_owner.
  - intros Hne (_ & HA & Hp). apply Hne. by rewrite HA, Hp.
Qed.

Lemma album_photos_delete_not_owner auth_uid A photoId db :
  ¬ album_photos_policy auth_uid db A →
  album_photos_delete auth_uid A photoId db = Ok db.
Proof.
  intros Hpol. unfold album_photos_delete, with_album_photos.
  rewrite filter_all; [by rewrite database_eta|].
  apply Forall_forall. intros r _ (Hr & HA & _). apply Hpol. by rewrite <- HA.
Qed.

(** [handleRemovePhoto] by the owner of the album: the membership row of
    that photo in that album goes, every other row of every table stays,
    and the message is the same when the photo was no member, in which case
    nothing changes. *)
Theorem remove_photo_from_album (e : env) (owner : uuid) (a : Album.t) (photoId : uuid) (db : database) :
  db_reachable e = true → a ∈ albums db → Album.user_id a = owner →
  let (shown, db') :=
    AlbumDetail.handleRemovePhoto e (Some owner) (Some (Album.id a)) photoId db in
  shown = toast_info "Foto removida"
  ∧ album_photos db'
    = filter (λ r, AlbumPhoto.key r ≠ (Album.id a, photoId)) (album_photos db)
  ∧ photos db' = photos db ∧ albums db' = albums db
  ∧ profiles db' = profiles db ∧ auth_users db' = auth_users db
  ∧ ((Album.id a, photoId) ∉ AlbumPhoto.key <$> album_photos db → db' = db).
Proof.
  intros He Ha Ho.
  rewrite handleRemovePhoto_eq, request_reachable, (album_photos_delete_owner owner) by done.
  repeat split; try done.
  intros Hnot. unfold with_album_photos. rewrite filter_all; [apply database_eta|].
  apply Forall_forall. intros r Hr Hk. apply Hnot. rewrite <- Hk. by apply list_elem_of_fmap_2.
Qed.

(** [u1] takes [p2] out of [A]. *)
Lemma remove_photo_from_album_witness :
  AlbumPhoto.key <$> album_photos
    (AlbumDetail.handleRemovePhoto (Scenario.env_at 30 "g3") (Some "u1") (Some "A") "p2"
       Scenario.db2).2
  = [("A", "p1"); ("A", "p3")].
Proof.
  pose proof (remove_photo_from_album (Scenario.env_at 30 "g3") "u1" Scenario.album_A "p2"
                Scenario.db2) as H.
  destruct (AlbumDetail.handleRemovePhoto _ _ _ _ _) as [shown db'] in H |- *.
  destruct H as (_ & Hrows & _).
  - reflexivity.
  - by_computation.
  - reflexivity.
  - simpl. rewrite Hrows. reflexivity.
Defined.

(** Adding a photo to an album and removing it again gives back the
    database as it was. *)
Theorem add_then_remove_round_trip (e e' : env) (owner : uuid) (a : Album.t) (p : uuid) (db : database) :
  db_reachable e = true → db_reachable e' = true →
  a ∈ albums db → Album.user_id a = owner →
  p ∈ Photo.id <$> photos db →
  (Album.id a, p) ∉ AlbumPhoto.key <$> album_photos db →
  (AlbumDetail.handleRemovePhoto e' (Some owner) (Some (Album.id a)) p
     (AlbumDetail.handleAddPhotos e (Some owner) (Some (Album.id a)) [p] db).2).2 = db.
Proof.
  intros He He' Ha Ho Hp Hnew.
  rewrite (handleAddPhotos_new e owner a [p] db); try done.
  - cbn [snd]. rewrite handleRemovePhoto_eq, request_reachable by done.
    rewrite (album_photos_delete_owner owner) by done. cbn [snd].
    unfold with_album_photos. cbn [album_photos auth_users profiles photos albums].
    rewrite filter_app.
    rewrite filter_all, filter_none, app_nil_r; [apply database_eta| |].
    + apply Forall_singleton. intros Hk. by apply Hk.
    + apply Forall_forall. intros r Hr Hk. apply Hnew. rewrite <- Hk.
      by apply list_elem_of_fmap_2.
  - apply NoDup_singleton.
  - by apply Forall_singleton.
Qed.

(** [u1] adds [p3] to [A] and takes it out again. *)
Lemma add_then_remove_round_trip_witness :
  (AlbumDetail.handleRemovePhoto (Scenario.env_at 21 "g3") (Some "u1") (Some "A") "p3"
     Scenario.db2).2 = Scenario.db1.
Proof.
  apply (add_then_remove_round_trip (Scenario.env_at 20 "g2") (Scenario.env_at 21 "g3") "u1"
           Scenario.album_A "p3" Scenario.db1).
  - reflexivity.
  - reflexivity.
  - by_computation.
  - reflexivity.
  - by_computation.
  - by_computation.
Defined.

(** ** An album of somebody else *)

Lemma albums_delete_none auth_uid album_id db :
  Forall (λ a, ¬ (albums_policy auth_uid a ∧ Album.id a = album_id)) (albums db) →
  albums_delete auth_uid album_id db = Ok db.
Proof.
  intros Hnone. unfold albums_delete.
  rewrite (filter_none _ _ Hnone). simpl.
  rewrite filter_all by done.
  rewrite (filter_all (λ r, AlbumPhoto.album_id r ∉ [])); [by rewrite database_eta|].
  apply Forall_forall. intros r _. apply not_elem_of_nil.
Qed.

Lemma not_album_photos_policy auth_uid db A :
  ¬ album_photos_policy auth_uid db A →
  Forall (λ a, ¬ (albums_policy auth_uid a ∧ Album.id a = A)) (albums db).
Proof.
  intros Hpol. apply Forall_forall. intros a Ha [Hown Hid]. apply Hpol.
  apply Exists_exists. by exists a.
Qed.

(** A caller who owns no album with the id [A], whether [A] is the album of
    somebody else or no album at all, cannot tell which and cannot change
    it: the page of the album does not load, adding photos is refused by the
    policy, and deleting the album or removing a photo from it changes
    nothing, although the message shown is that of a success. *)
Theorem not_my_album (e : env) (auth_uid : option uuid) (A : uuid) (db : database) :
  db_reachable e = true → ¬ album_photos_policy auth_uid db A →
  (∀ userId, AlbumDetail.loadAlbumData e auth_uid (Some A) userId db
             = Some (Err not_a_single_row))
  ∧ (∀ p S, AlbumDetail.handleAddPhotos e auth_uid (Some A) (p :: S) db
            = (toast_error "Erro ao adicionar fotos" rls_violation, db))
  ∧ (∀ photoId, AlbumDetail.handleRemovePhoto e auth_uid (Some A) photoId db
                = (toast_info "Foto removida", db))
  ∧ Albums.handleDelete e auth_uid A db
    = (if confirm e then toast_info "Álbum excluído" else no_toast, db).
Proof.
  intros He Hpol. pose proof (not_album_photos_policy _ _ _ Hpol) as Hnone.
  split; [|split; [|split]].
  - intros userId. unfold AlbumDetail.loadAlbumData. simpl.
    rewrite request_reachable by done. unfold albums_select.
    rewrite list_filter_filter, filter_none; [done|].
    eapply Forall_impl; [exact Hnone|]. intros a Ha [[Hid _] Hown]. by apply Ha.
  - intros p S. by apply handleAddPhotos_not_owner.
  - intros photoId.
    by rewrite handleRemovePhoto_eq, request_reachable, album_photos_delete_not_owner.
  - unfold Albums.handleDelete. destruct (confirm e); [|done].
    by rewrite request_reachable, albums_delete_none.
Qed.

(** [u2] at the album [A] of [u1]. *)
Lemma not_my_album_witness :
  AlbumDetail.loadAlbumData (Scenario.env_at 30 "g3") (Some "u2") (Some "A") "u2" Scenario.db2
  = Some (Err not_a_single_row)
  ∧ Albums.handleDelete (Scenario.env_at 30 "g3") (Some "u2") "A" Scenario.db2
    = (toast_info "Álbum excluído", Scenario.db2).
Proof.
  destruct (not_my_album (Scenario.env_at 30 "g3") (Some "u2") "A" Scenario.db2)
    as (Hload & _ & _ & Hdelete).
  - reflexivity.
  - by_computation.
  - split; [apply Hload|exact Hdelete].
Defined.

(** ** A photo of somebody else *)

(** The delete of a photo that is not a photo of the caller, be it the
    photo of somebody else or no photo at all, changes nothing in the
    database, whatever the address given with it; the message shown is that
    of a success. *)
Theorem not_my_photo (e : env) (auth_uid : option uuid) (photoId : uuid) (photoUrl : string)
    (db : database) (bucket : list string) :
  confirm e = true → db_reachable e = true →
  Forall (λ p, Photo.id p = photoId → ¬ photos_policy auth_uid p) (photos db) →
  (Home.handleDelete e auth_uid photoId photoUrl db bucket).1
  = (toast_info "Foto excluída", db).
Proof.
  intros Hc He Hnot. rewrite handleDelete_photo_eq, Hc, request_reachable by done. cbv zeta.
  rewrite photos_delete_none; [done|].
  eapply Forall_impl; [exact Hnot|]. intros p Hp [Hpol Hid]. by apply Hp.
Qed.

(** [u2] at the photo [p1] of [u1]. *)
Lemma not_my_photo_witness :
  (Home.handleDelete (Scenario.env_at 30 "g3") (Some "u2") "p1" (Photo.url Scenario.p1)
     Scenario.db2 Scenario.bucket0).1
  = (toast_info "Foto excluída", Scenario.db2).
Proof.
  apply (not_my_photo (Scenario.env_at 30 "g3") (Some "u2") "p1").
  - reflexivity.
  - reflexivity.
  - by_computation.
Defined.

(** ** What a removal from the bucket can reach *)

(** [storage.remove] takes away only objects that are named in the request
    and lie in the folder of the caller; the objects of other folders, the
    objects not named, and everything when the request fails or the caller
    has no session, stay in place and in order. *)
Lemma storage_remove_own_folder (auth_uid : option uuid) (e : env) (paths : list (option string))
    (bucket : list string) :
  let bucket' := (storage_remove auth_uid e paths bucket).2 in
  bucket' `sublist_of` bucket
  ∧ (∀ name, name ∈ bucket → name ∉ bucket' →
             Some name ∈ paths ∧ is_Some auth_uid ∧ foldername_1 name = auth_uid)
  ∧ (∀ name, name ∈ bucket → foldername_1 name ≠ auth_uid → name ∈ bucket')
  ∧ (storage_remove_ok e = false ∨ auth_uid = None → bucket' = bucket).
Proof.
  unfold storage_remove. destruct (storage_remove_ok e); simpl.
  - split; [apply sublist_filter|]. split; [|split].
    + intros name Hin Hout.
      destruct (decide (Some name ∈ paths ∧ storage_write_policy auth_uid name))
        as [[? [? ?]]|Hno]; [done|].
      destruct Hout. by apply list_elem_of_filter.
    + intros name Hin Hne. apply list_elem_of_filter. split; [|done].
      intros [_ [_ ?]]. done.
    + intros [?| ->]; [done|]. apply filter_all, Forall_forall.
      intros name _ [_ [[? ?] _]]. done.
  - split; [done|]. split; [done|]. split; done.
Qed.

(** Whatever a caller deletes on the page of photos, the objects of other
    users stay in the bucket. *)
Theorem delete_photo_keeps_other_folders (e : env) (auth_uid : option uuid) (photoId : uuid)
    (photoUrl : string) (db : database) (bucket : list string) (name : string) :
  name ∈ bucket → foldername_1 name ≠ auth_uid →
  name ∈ (Home.handleDelete e auth_uid photoId photoUrl db bucket).2.
Proof.
  intros Hin Hne. rewrite handleDelete_photo_eq. destruct (confirm e); [|done]. cbv zeta.
  destruct (storage_remove_own_folder auth_uid e [split_1 "/photos/" photoUrl] bucket)
    as (_ & _ & Hkeep & _).
  destruct (request e _); simpl; by apply Hkeep.
Qed.

(** [u1] cannot take the object of [u2] out of the bucket, even with the
    address of the photo of [u2]. *)
Lemma delete_photo_keeps_other_folders_witness :
  "u2/1.png" ∈ (Home.handleDelete (Scenario.env_at 30 "g3") (Some "u1") "q1"
                  (Photo.url Scenario.q1) Scenario.db2 Scenario.bucket0).2.
Proof.
  apply delete_photo_keeps_other_folders.
  - by_computation.
  - vm_compute. discriminate.
Defined.

(** ** The picker of the album page *)

Lemma loadAlbumData_owner e owner a db :
  db_reachable e = true → NoDup (Album.id <$> albums db) →
  a ∈ albums db → Album.user_id a = owner →
  AlbumDetail.loadAlbumData e (Some owner) (Some (Album.id a)) owner db
  = Some (Ok (AlbumDetail.mkState a
                (AlbumDetail.listAlbumPhotos e (Some owner) (Album.id a) db)
                (AlbumDetail.listAvailablePhotos e (Some owner) owner
                   (AlbumDetail.listAlbumPhotos e (Some owner) (Album.id a) db) db))).
Proof.
  intros He Hnd Ha Ho. unfold AlbumDetail.loadAlbumData. simpl.
  rewrite request_reachable by done. subst owner. by rewrite albums_single.
Qed.

Lemma elem_of_listAvailablePhotos e owner members db p :
  db_reachable e = true →
  p ∈ AlbumDetail.listAvailablePhotos e (Some owner) owner members db
  ↔ p ∈ photos_owned_by owner db ∧ AlbumDetail.id p ∉ AlbumDetail.id <$> members.
Proof.
  intros He. unfold AlbumDetail.listAvailablePhotos. rewrite request_reachable by done.
  rewrite list_elem_of_filter, not_elem_of_list_to_set, own_photos_select.
  unfold photos_owned_by. tauto.
Qed.

Lemma listAlbumPhotos_ids e auth_uid A db x :
  x ∈ AlbumDetail.id <$> AlbumDetail.listAlbumPhotos e auth_uid A db →
  (A, x) ∈ AlbumPhoto.key <$> album_photos db ∧ x ∈ Photo.id <$> photos db.
Proof.
  intros (p & -> & Hp)%list_elem_of_fmap.
  apply elem_of_listAlbumPhotos in Hp as (r & q & Hr & HA & Hq & Hid & _ & ->).
  split.
  - apply list_elem_of_fmap. exists r. split; [|done]. unfold AlbumPhoto.key.
    by rewrite HA, <- Hid.
  - change (Photo.id q ∈ Photo.id <$> photos db). by apply list_elem_of_fmap_2.
Qed.







(** A photo taken out of an album is offered by the picker again and is no
    longer listed; the other photos of the album are listed as before. *)
Theorem removed_photo_is_offered_again (e : env) (owner : uuid) (a : Album.t) (q : Photo.t)
    (db : database) :
  db_reachable e = true → schema_ok db →
  a ∈ albums db → Album.user_id a = owner →
  q ∈ photos db → Photo.user_id q = owner →
  let db' := (AlbumDetail.handleRemovePhoto e (Some owner) (Some (Album.id a)) (Photo.id q) db).2 in
  ∃ st, AlbumDetail.loadAlbumData e (Some owner) (Some (Album.id a)) owner db' = Some (Ok st)
    ∧ AlbumDetail.columns q ∈ AlbumDetail.availablePhotos st
    ∧ (Photo.id q ∉ AlbumDetail.id <$> AlbumDetail.albumPhotos st)
    ∧ (∀ p, AlbumDetail.id p ≠ Photo.id q →
            p ∈ AlbumDetail.albumPhotos st
            ↔ p ∈ AlbumDetail.listAlbumPhotos e (Some owner) (Album.id a) db).
Proof.
  intros He Hok Ha Ho Hq Hqo db'. unfold db'.
  rewrite handleRemovePhoto_eq, request_reachable, (album_photos_delete_owner owner) by done.
  cbn [snd]. set (db1 := with_album_photos _ db).
  rewrite (loadAlbumData_owner e owner a db1); [|done|apply Hok|done|done].
  eexists. split; [done|]. cbn [AlbumDetail.albumPhotos AlbumDetail.availablePhotos].
  assert (Hgone : Photo.id q ∉ AlbumDetail.id
                    <$> AlbumDetail.listAlbumPhotos e (Some owner) (Album.id a) db1).
  { intros [Hk _]%listAlbumPhotos_ids.
    apply list_elem_of_fmap in Hk as (r & Hk & Hr).
    apply list_elem_of_filter in Hr as [Hne _]. by apply Hne. }
  split; [|split; [done|]].
  - apply elem_of_listAvailablePhotos; [done|]. split; [|done].
    apply list_elem_of_fmap_2, list_elem_of_filter. by split.
  - intros p Hp. split.
    + intros (r & q' & Hr & ? & ? & ? & Hpol & ->)%elem_of_listAlbumPhotos.
      apply list_elem_of_filter in Hr as [_ Hr].
      eapply listAlbumPhotos_elem_of; try done; [apply Hok|].
      unfold photos_policy, owns in Hpol. congruence.
    + intros (r & q' & Hr & HA & Hq' & Hid & Hpol & ->)%elem_of_listAlbumPhotos.
      eapply (listAlbumPhotos_elem_of e owner a db1 r q'); try done; [apply Hok| |].
      * apply list_elem_of_filter. split; [|done].
        unfold AlbumPhoto.key. intros [= _ Hk]. apply Hp. simpl. by rewrite Hid.
      * unfold photos_policy, owns in Hpol. congruence.
Qed.

(** [u1] takes [p2] out of [A]: the picker offers [p2] and [A] lists [p1],
    [p3]. *)
Lemma removed_photo_is_offered_again_witness :
  ∃ st, AlbumDetail.loadAlbumData (Scenario.env_at 30 "g3") (Some "u1") (Some "A") "u1"
          (AlbumDetail.handleRemovePhoto (Scenario.env_at 30 "g3") (Some "u1") (Some "A") "p2"
             Scenario.db2).2 = Some (Ok st)
    ∧ AlbumDetail.columns Scenario.p2 ∈ AlbumDetail.availablePhotos st.
Proof.
  destruct (removed_photo_is_offered_again (Scenario.env_at 30 "g3") "u1" Scenario.album_A
              Scenario.p2 Scenario.db2) as (st & Hload & Hoffered & _).
  - reflexivity.
  - apply schema_check_ok. vm_compute. reflexivity.
  - by_computation.
  - reflexivity.
  - by_computation.
  - reflexivity.
  - exists st. split; [exact Hload|exact Hoffered].
Defined.

(** ** The page of photos *)

(** [loadPhotos] lists the photos of the caller, all of them, the one
    created last first. Asked for the photos of another user, or without a
    session, it lists nothing: the select policy hides them. *)
Theorem loadPhotos_own_newest_first (e : env) (u : uuid) (db : database) :
  db_reachable e = true →
  (∃ listed, Home.loadPhotos e (Some u) u db = Ok listed
     ∧ listed ≡ₚ filter (λ p, Photo.user_id p = u) (photos db)
     ∧ StronglySorted (newest_first Photo.created_at) listed)
  ∧ (∀ v, v ≠ u → Home.loadPhotos e (Some u) v db = Ok [])
  ∧ (∀ v, Home.loadPhotos e None v db = Ok []).
Proof.
  intros He. unfold Home.loadPhotos. rewrite !request_reachable by done.
  split; [|split].
  - eexists. split; [done|]. rewrite own_photos_select.
    split; [apply merge_sort_Permutation|apply StronglySorted_merge_sort; apply _].
  - intros v Hv. rewrite request_reachable by done. f_equal.
    unfold photos_select. rewrite list_filter_filter, filter_none; [done|].
    apply Forall_forall. intros p _ [Hp Hpol]. unfold photos_policy, owns in Hpol. congruence.
  - intros v. rewrite request_reachable by done. f_equal.
    unfold photos_select. rewrite list_filter_filter, filter_none; [done|].
    apply Forall_forall. by intros p _ [_ Hpol].
Qed.

(** The photos of [u1], newest first. *)
Lemma loadPhotos_own_newest_first_witness :
  Home.loadPhotos (Scenario.env_at 30 "g3") (Some "u1") "u1" Scenario.db2
  = Ok [Scenario.p3; Scenario.p2; Scenario.p1]
  ∧ Home.loadPhotos (Scenario.env_at 30 "g3") (Some "u1") "u2" Scenario.db2 = Ok [].
Proof.
  destruct (loadPhotos_own_newest_first (Scenario.env_at 30 "g3") "u1" Scenario.db2)
    as (_ & Hother & _).
  - reflexivity.
  - split; [reflexivity|]. apply Hother. discriminate.
Defined.

(** A photo its owner has deleted is listed nowhere: not on the page of
    photos, and on no album page of any user, among the members or in the
    picker. *)
Theorem deleted_photo_is_listed_nowhere (e : env) (U : uuid) (p : Photo.t) (photoUrl : string)
    (db : database) (bucket : list string) :
  confirm e = true → db_reachable e = true → NoDup (Photo.id <$> photos db) →
  p ∈ photos db → Photo.user_id p = U →
  let db' := (Home.handleDelete e (Some U) (Photo.id p) photoUrl db bucket).1.2 in
  (∀ e' auth_uid userId listed,
     Home.loadPhotos e' auth_uid userId db' = Ok listed → Photo.id p ∉ Photo.id <$> listed)
  ∧ (∀ e' auth_uid A,
       Photo.id p ∉ AlbumDetail.id <$> AlbumDetail.listAlbumPhotos e' auth_uid A db')
  ∧ (∀ e' auth_uid userId members,
       Photo.id p ∉ AlbumDetail.id
         <$> AlbumDetail.listAvailablePhotos e' auth_uid userId members db').
Proof.
  intros Hc He Hnd Hp Ho db'.
  assert (Hgone : Photo.id p ∉ Photo.id <$> photos db').
  { unfold db'. rewrite handleDelete_photo_eq, Hc, request_reachable by done.
    rewrite (photos_delete_owner U) by done. cbv zeta. cbn [fst snd photos].
    intros (x & Hid & Hx)%list_elem_of_fmap. by apply list_elem_of_filter in Hx as [Hne _]. }
  split; [|split].
  - intros e' auth_uid userId listed Hload Hin. apply Hgone.
    unfold Home.loadPhotos, request in Hload. destruct (db_reachable e'); [|done].
    injection Hload as <-. rewrite merge_sort_Permutation in Hin.
    apply list_elem_of_fmap in Hin as (x & -> & Hx).
    apply list_elem_of_filter in Hx as [_ Hx]. apply list_elem_of_filter in Hx as [_ Hx].
    by apply list_elem_of_fmap_2.
  - intros e' auth_uid A Hin. by apply listAlbumPhotos_ids in Hin as [_ ?].
  - intros e' auth_uid userId members Hin. apply Hgone.
    unfold AlbumDetail.listAvailablePhotos, request in Hin.
    destruct (db_reachable e'); [|by apply elem_of_nil in Hin].
    apply list_elem_of_fmap in Hin as (x & -> & Hx).
    apply list_elem_of_filter in Hx as [_ Hx].
    apply list_elem_of_fmap in Hx as (y & -> & Hy).
    apply list_elem_of_filter in Hy as [_ Hy]. apply list_elem_of_filter in Hy as [_ Hy].
    by apply (list_elem_of_fmap_2 Photo.id).
Qed.

(** [u1] deletes [p3], a member of [A]: the page of [A] lists [p1], [p2]. *)
Lemma deleted_photo_is_listed_nowhere_witness :
  "p3" ∉ AlbumDetail.id
    <$> AlbumDetail.listAlbumPhotos (Scenario.env_at 31 "g4") (Some "u1") "A"
          (Home.handleDelete (Scenario.env_at 30 "g3") (Some "u1") "p3" (Photo.url Scenario.p3)
             Scenario.db2 Scenario.bucket0).1.2.
Proof.
  destruct (deleted_photo_is_listed_nowhere (Scenario.env_at 30 "g3") "u1" Scenario.p3
              (Photo.url Scenario.p3) Scenario.db2 Scenario.bucket0) as (_ & Halbum & _).
  - reflexivity.
  - reflexivity.
  - by_computation.
  - by_computation.
  - reflexivity.
  - apply (Halbum (Scenario.env_at 31 "g4") (Some "u1") "A").
Defined.

(** ** The cards of the page of albums *)

Lemma length_omap_fmap {A B C} (f : A → option B) (g : B → C) (l : list A) :
  length (omap (λ x, g <$> f x) l) = length (omap f l).
Proof.
  induction l as [|a l IH]; [done|]. rewrite !omap_cons_eq.
  destruct (f a); simpl; by rewrite IH.
Qed.

(** The number on the card of an album is the number of photos the page of
    that album lists. *)
Theorem card_count_is_album_page_count (e : env) (auth_uid : option uuid) (userId : uuid)
    (db : database) (listed : list Albums.Album) (card : Albums.Album) :
  db_reachable e = true →
  Albums.loadAlbums e auth_uid userId db = Ok listed → card ∈ listed →
  Albums.count card
  = length (AlbumDetail.listAlbumPhotos e auth_uid (Album.id (Albums.row card)) db).
Proof.
  intros He Hload Hcard. rewrite loadAlbums_eq in Hload by done. injection Hload as <-.
  apply list_elem_of_fmap in Hcard as (a & -> & _).
  unfold Albums.count, Albums.embedded_urls, AlbumDetail.listAlbumPhotos. simpl.
  rewrite request_reachable by done.
  by rewrite !length_omap_fmap.
Qed.

(** The card of [A] counts three photos, as the page of [A] lists. *)
Lemma card_count_is_album_page_count_witness :
  ∃ card, Albums.loadAlbums (Scenario.env_at 30 "g3") (Some "u1") "u1" Scenario.db2 = Ok [card]
    ∧ Albums.count card = 3%nat.
Proof.
  set (card := Albums.mkAlbum Scenario.album_A
                 (Albums.embedded_urls (Some "u1") Scenario.db2 Scenario.album_A)).
  assert (Hload : Albums.loadAlbums (Scenario.env_at 30 "g3") (Some "u1") "u1" Scenario.db2
                  = Ok [card]) by (vm_compute; reflexivity).
  exists card. split; [exact Hload|].
  rewrite (card_count_is_album_page_count (Scenario.env_at 30 "g3") (Some "u1") "u1"
             Scenario.db2 [card] card eq_refl Hload (list_elem_of_here _ _)).
  vm_compute. reflexivity.
Defined.

Lemma embedded_urls_new_album auth_uid new db a :
  Forall (λ r, AlbumPhoto.album_id r ∈ Album.id <$> albums db) (album_photos db) →
  Album.id new ∉ Album.id <$> albums db →
  Albums.embedded_urls auth_uid (with_albums (λ t, t ++ [new]) db) a
  = if decide (Album.id a = Album.id new) then [] else Albums.embedded_urls auth_uid db a.
Proof.
  intros Hfk Hfresh. unfold Albums.embedded_urls, album_photos_select.
  rewrite !list_filter_filter. simpl. case_decide as Hid.
  - rewrite filter_none; [done|]. eapply Forall_impl; [exact Hfk|].
    intros r Hr [HA _]. apply Hfresh. by rewrite <- Hid, <- HA.
  - f_equal. apply filter_equiv. intros r Hr.
    unfold album_photos_policy. simpl. rewrite Exists_app, Exists_cons, Exists_nil.
    split; [|tauto]. intros [HA [Hex|[[Hnew _]|[]]]]; [done|]. by rewrite Hnew, HA in Hid.
Qed.

Lemma sorted_head {A} `{EqDecision A} (R : relation A) (l : list A) (x : A) :
  StronglySorted R l → x ∈ l → (∀ y, y ∈ l → y ≠ x → ¬ R y x) → head l = Some x.
Proof.
  intros Hs Hx Hnew. destruct l as [|h t]; [by apply elem_of_nil in Hx|]. simpl. f_equal.
  destruct (decide (h = x)) as [|Hne]; [done|].
  apply StronglySorted_inv in Hs as [_ Hall].
  apply elem_of_cons in Hx as [->|Hx]; [done|].
  rewrite Forall_forall in Hall. destruct (Hnew h); [left|done|by apply Hall].
Qed.

(** A new album is on the page of albums at once: its card has no photo
    and no image, the cards of the albums the user had are there as they
    were, and the new card is the first when no album of the user is as
    recent as it. *)
Theorem created_album_is_listed (e e' : env) (user : uuid) (name description : string)
    (db : database) :
  db_reachable e = true → db_reachable e' = true → schema_ok db →
  user ∈ AuthUser.id <$> auth_users db →
  gen_random_uuid e ∉ Album.id <$> albums db →
  let new := Album.mk (gen_random_uuid e) user name (or_null description) None (now e) in
  let db' := (Albums.handleCreate e (Some user) (Some user) name description db).2 in
  ∃ listed,
    Albums.loadAlbums e' (Some user) user db' = Ok listed
    ∧ Albums.row <$> listed ≡ₚ new :: filter (λ a, Album.user_id a = user) (albums db)
    ∧ Albums.mkAlbum new [] ∈ listed
    ∧ Albums.cover (Albums.mkAlbum new []) = None
    ∧ (∀ a, a ∈ albums db → Album.user_id a = user →
            Albums.mkAlbum a (Albums.embedded_urls (Some user) db a) ∈ listed)
    ∧ ((∀ a, a ∈ albums db → Album.user_id a = user → Album.created_at a < now e) →
       head listed = Some (Albums.mkAlbum new [])).
Proof.
  intros He He' Hok Huser Hfresh new db'.
  assert (Hdb' : db' = with_albums (λ t, t ++ [new]) db).
  { unfold db', Albums.handleCreate.
    rewrite request_reachable, albums_insert_named by done. reflexivity. }
  rewrite Hdb'. rewrite loadAlbums_eq by done. eexists. split; [done|].
  rewrite own_albums_select. cbn [albums with_albums].
  rewrite filter_app, (filter_cons_True _ new) by done. rewrite filter_nil.
  set (own := filter (λ a, Album.user_id a = user) (albums db)).
  set (sorted := merge_sort (newest_first Album.created_at) (own ++ [new])).
  assert (Hperm : sorted ≡ₚ new :: own).
  { unfold sorted. rewrite merge_sort_Permutation. symmetry. apply Permutation_cons_append. }
  assert (Hurls : ∀ a, Albums.embedded_urls (Some user) (with_albums (λ t, t ++ [new]) db) a
                       = if decide (Album.id a = Album.id new) then []
                         else Albums.embedded_urls (Some user) db a).
  { intros a. apply embedded_urls_new_album; [apply Hok|done]. }
  split; [by rewrite rows_of_cards|]. split; [|split; [done|split]].
  - apply list_elem_of_fmap. exists new. split.
    + by rewrite Hurls, decide_True.
    + rewrite Hperm. left.
  - intros a Ha Ho. apply list_elem_of_fmap. exists a. split.
    + rewrite Hurls, decide_False; [done|]. intros Hid. apply Hfresh.
      simpl in Hid. rewrite <- Hid. by apply list_elem_of_fmap_2.
    + rewrite Hperm. right. by apply list_elem_of_filter.
  - intros Hrecent.
    assert (Hhead : head sorted = Some new).
    { apply (sorted_head (newest_first Album.created_at)).
      - apply StronglySorted_merge_sort; apply _.
      - rewrite Hperm. left.
      - intros y Hy Hne. rewrite Hperm in Hy. apply elem_of_cons in Hy as [?|Hy]; [done|].
        apply list_elem_of_filter in Hy as [Ho Hy]. specialize (Hrecent y Hy Ho).
        unfold newest_first. simpl. lia. }
    destruct sorted as [|h t]; [done|]. injection Hhead as ->.
    rewrite fmap_cons. simpl. by rewrite Hurls, decide_True.
Qed.

(** [u1] creates the album "Lisboa" at time 30: its card comes first. *)
Lemma created_album_is_listed_witness :
  ∃ listed,
    Albums.loadAlbums (Scenario.env_at 31 "g") (Some "u1") "u1"
      (Albums.handleCreate (Scenario.env_at 30 "C") (Some "u1") (Some "u1") "Lisboa" ""
         Scenario.db2).2 = Ok listed
    ∧ head listed = Some (Albums.mkAlbum (Album.mk "C" "u1" "Lisboa" None None 30) []).
Proof.
  destruct (created_album_is_listed (Scenario.env_at 30 "C") (Scenario.env_at 31 "g") "u1"
              "Lisboa" "" Scenario.db2) as (listed & Hload & _ & _ & _ & _ & Hfirst).
  - reflexivity.
  - reflexivity.
  - apply schema_check_ok. vm_compute. reflexivity.
  - by_computation.
  - by_computation.
  - exists listed. split; [exact Hload|]. apply Hfirst.
    assert (Hrecent : Forall (λ a, Album.user_id a = "u1" → Album.created_at a < 30)
                        (albums Scenario.db2)) by by_computation.
    intros a Ha Ho. rewrite Forall_forall in Hrecent. exact (Hrecent a Ha Ho).
Defined.

(** ** The profile form *)

Lemma default_or_null (s : string) : default "" (or_null s) = s.
Proof. unfold or_null. by case_decide. Qed.

Lemma filter_fmap_key {A K} `{EqDecision K} (key : A → K) (f : A → A) (k : K) (l : list A) :
  (∀ x, key (f x) = key x) →
  filter (λ x, key x = k) (f <$> l) = f <$> filter (λ x, key x = k) l.
Proof.
  intros Hkey. induction l as [|a l IH]; [done|].
  rewrite fmap_cons, !filter_cons, Hkey. case_decide; [|done]. by rewrite fmap_cons, IH.
Qed.

Lemma filter_fmap_fixed {A} (P : A → Prop) `{∀ x, Decision (P x)} (f : A → A) (l : list A) :
  (∀ x, P (f x) ↔ P x) → (∀ x, P x → f x = x) →
  filter P (f <$> l) = filter P l.
Proof.
  intros HP Hf. induction l as [|a l IH]; [done|].
  rewrite fmap_cons, !filter_cons.
  destruct (decide (P (f a))) as [Hfa|Hfa], (decide (P a)) as [Ha|Ha].
  - by rewrite IH, Hf.
  - destruct Ha. by apply HP.
  - destruct Hfa. by apply HP.
  - exact IH.
Qed.

Lemma handleSave_eq e auth_uid user displayName avatarUrl db :
  ProfilePage.handleSave e auth_uid (Some user) displayName avatarUrl db
  = match request e (profiles_update auth_uid user
                       (ProfilePage.set_fields displayName avatarUrl) db) with
    | Err error => (toast_error "Erro ao salvar perfil" error, db)
    | Ok db' => (toast_info "Perfil atualizado!", db')
    end.
Proof. done. Qed.

(** What is saved on the profile form is what the form loads afterwards:
    the two fields come back as they were typed, an empty field being
    stored as null and loaded as empty. The id, the user and the date of
    the profile are kept, and the profiles of the other users are not
    touched. *)
Theorem save_profile_round_trip (e e' : env) (u : uuid) (displayName avatarUrl : string)
    (db : database) :
  db_reachable e = true → db_reachable e' = true →
  NoDup (Profile.user_id <$> profiles db) → u ∈ Profile.user_id <$> profiles db →
  let (shown, db') := ProfilePage.handleSave e (Some u) (Some u) displayName avatarUrl db in
  shown = toast_info "Perfil atualizado!"
  ∧ ProfilePage.loadProfile e' (Some u) u db' = Some (displayName, avatarUrl)
  ∧ (∃ p, filter (λ p, Profile.user_id p = u) (profiles db) = [p]
          ∧ filter (λ p, Profile.user_id p = u) (profiles db')
            = [Profile.mk (Profile.id p) u (or_null displayName) (or_null avatarUrl)
                 (Profile.created_at p)])
  ∧ filter (λ p, Profile.user_id p ≠ u) (profiles db')
    = filter (λ p, Profile.user_id p ≠ u) (profiles db).
Proof.
  intros He He' Hnd Hu. rewrite handleSave_eq, request_reachable by done.
  unfold profiles_update. cbn [with_profiles profiles].
  set (upd := λ p, if decide (profiles_write_policy (Some u) p ∧ Profile.user_id p = u)
                   then ProfilePage.set_fields displayName avatarUrl p else p).
  assert (Hkey : ∀ p, Profile.user_id (upd p) = Profile.user_id p).
  { intros p. unfold upd. by case_decide. }
  destruct (filter_by_key Profile.user_id (profiles db) u Hnd Hu) as (p & Hp & Hpu).
  assert (Hmine : filter (λ p, Profile.user_id p = u) (upd <$> profiles db)
                  = [ProfilePage.set_fields displayName avatarUrl p]).
  { rewrite (filter_fmap_key Profile.user_id) by done. rewrite Hp. simpl. f_equal.
    unfold upd. rewrite decide_True; [done|]. split; [|done].
    unfold profiles_write_policy, owns. by rewrite Hpu. }
  split; [done|]. split; [|split].
  - unfold ProfilePage.loadProfile, profiles_select. rewrite request_reachable by done.
    rewrite list_filter_filter.
    rewrite (filter_equiv _ (λ p, Profile.user_id p = u))
      by (intros; unfold profiles_select_policy; tauto).
    unfold with_profiles. cbn [profiles]. fold upd. rewrite Hmine. simpl.
    by rewrite !default_or_null.
  - exists p. split; [done|]. rewrite Hmine. unfold ProfilePage.set_fields. congruence.
  - apply filter_fmap_fixed; [intros x; by rewrite Hkey|].
    intros x Hx. unfold upd. rewrite decide_False; [done|]. by intros [_ ?].
Qed.

(** [u1] saves a name and no avatar. *)
Lemma save_profile_round_trip_witness :
  ProfilePage.loadProfile (Scenario.env_at 31 "g") (Some "u1") "u1"
    (ProfilePage.handleSave (Scenario.env_at 30 "g") (Some "u1") (Some "u1") "Ana" ""
       Scenario.db2).2
  = Some ("Ana", "").
Proof.
  pose proof (save_profile_round_trip (Scenario.env_at 30 "g") (Scenario.env_at 31 "g") "u1"
                "Ana" "" Scenario.db2) as H.
  destruct (ProfilePage.handleSave _ _ _ _ _ _) as [shown db'] in H |- *.
  destruct H as (_ & Hload & _).
  - reflexivity.
  - reflexivity.
  - by_computation.
  - by_computation.
  - exact Hload.
Defined.

(** The profile of a user who has just signed up, as the profile form of
    any caller loads it: the address of the account for a name, where it
    has one, and no avatar. *)
Theorem new_user_profile_form (e e' : env) (auth_uid : option uuid) (new : AuthUser.t)
    (db : database) :
  db_reachable e' = true → schema_ok db →
  AuthUser.id new ∉ AuthUser.id <$> auth_users db →
  gen_random_uuid e ∉ Profile.id <$> profiles db →
  ∃ db', auth_users_insert new e db = Ok db'
    ∧ ProfilePage.loadProfile e' auth_uid (AuthUser.id new) db'
      = Some (default "" (AuthUser.email new), "").
Proof.
  intros He' Hok Hnew Hfresh.
  assert (Hnone : AuthUser.id new ∉ Profile.user_id <$> profiles db).
  { intros (p & Hid & Hp)%list_elem_of_fmap. apply Hnew. rewrite Hid.
    pose proof (profiles_user_id_fkey _ Hok) as Hfk. rewrite Forall_forall in Hfk. by apply Hfk. }
  eexists. split; [by apply auth_users_insert_new|].
  unfold ProfilePage.loadProfile, profiles_select. rewrite request_reachable by done.
  rewrite list_filter_filter.
  rewrite (filter_equiv _ (λ p, Profile.user_id p = AuthUser.id new))
    by (intros; unfold profiles_select_policy; tauto).
  cbn [profiles]. rewrite filter_app, filter_none, filter_cons_True by done || by
    (apply Forall_forall; intros p Hp Hid; apply Hnone; rewrite <- Hid;
     by apply list_elem_of_fmap_2).
  done.
Qed.

(** A third user signs up; [u1] looks at the profile. *)
Lemma new_user_profile_form_witness :
  ∃ db',
    auth_users_insert (AuthUser.mk "u3" (Some "u3@example.org")) (Scenario.env_at 40 "r3")
      Scenario.db2 = Ok db'
    ∧ ProfilePage.loadProfile (Scenario.env_at 41 "g") (Some "u1") "u3" db'
      = Some ("u3@example.org", "").
Proof.
  destruct (new_user_profile_form (Scenario.env_at 40 "r3") (Scenario.env_at 41 "g") (Some "u1")
              (AuthUser.mk "u3" (Some "u3@example.org")) Scenario.db2) as (db' & Hrun & Hload).
  - reflexivity.
  - apply schema_check_ok. vm_compute. reflexivity.
  - by_computation.
  - by_computation.
  - exists db'. split; [exact Hrun|exact Hload].
Defined.

(** ** Uploading a photo *)

Lemma request_down {A} (e : env) (q : result A) :
  db_reachable e = false → request e q = Err request_failed.
Proof. unfold request. by intros ->. Qed.


Lemma handleUpload_eq e ue auth_uid user_id name title description db bucket :
  Home.handleUpload e ue auth_uid (Some user_id) (Some name) title description db bucket
  = let fileName :=
      user_id +:+ "/" +:+ pretty (date_now ue) +:+ "." +:+ file_ext name in
    match storage_upload auth_uid ue false fileName bucket with
    | (Err uploadError, bucket') => (toast_error "Erro ao fazer upload" uploadError, db, bucket')
    | (Ok _, bucket') =>
        match request e (photos_insert auth_uid e user_id (Some (getPublicUrl ue fileName))
                           (or_null title) (or_null description) db) with
        | Err dbError => (toast_error "Erro ao salvar foto" dbError, db, bucket')
        | Ok db' => (toast_info "Foto adicionada!", db', bucket')
        end
    end.
Proof. done. Qed.

Lemma storage_write_policy_own (uid rest : string) :
  String.index 0 "/" uid = None → storage_write_policy (Some uid) (uid +:+ "/" +:+ rest).
Proof. intros Hnone. split; [done|]. by apply foldername_1_own. Qed.






(** How an upload can fail, and what it leaves behind. A photo row is
    inserted only for the user of the session and only once its object is
    in the bucket. When the storage service does not answer, when the
    session is not that of the user, or when an object of that name is
    there already, nothing changes. When the object is stored and the
    insert of the row fails, the object stays in the bucket without a
    row. *)
Theorem upload_failures (e : env) (ue : upload_env) (auth_uid : option uuid) (user : uuid)
    (name title description : string) (db : database) (bucket : list string) :
  String.index 0 "/" user = None →
  let fileName := user +:+ "/" +:+ pretty (date_now ue) +:+ "." +:+ file_ext name in
  let run :=
    Home.handleUpload e ue auth_uid (Some user) (Some name) title description db bucket in
  (run.1.2 = db
   ∨ (fileName ∈ run.2 ∧ auth_uid = Some user
      ∧ ∃ row, photos run.1.2 = photos db ++ [row]
               ∧ Photo.url row = getPublicUrl ue fileName ∧ Photo.user_id row = user))
  ∧ (storage_upload_ok ue = false →
     run = (toast_error "Erro ao fazer upload" request_failed, db, bucket))
  ∧ (storage_upload_ok ue = true → auth_uid ≠ Some user →
     run = (toast_error "Erro ao fazer upload" rls_violation, db, bucket))
  ∧ (storage_upload_ok ue = true → auth_uid = Some user → fileName ∈ bucket →
     run = (toast_error "Erro ao fazer upload" unique_violation, db, bucket))
  ∧ (storage_upload_ok ue = true → auth_uid = Some user → fileName ∉ bucket →
     db_reachable e = false →
     run = (toast_error "Erro ao salvar foto" request_failed, db, bucket ++ [fileName])).
Proof.
  intros Hslash fileName run. unfold run. rewrite handleUpload_eq. cbv zeta. fold fileName.
  assert (Hpol : storage_write_policy auth_uid fileName ↔ auth_uid = Some user).
  { unfold storage_write_policy, fileName. rewrite foldername_1_own by done.
    split; [by intros [_ ->]|]. by intros ->. }
  unfold storage_upload. split; [|split; [|split; [|split]]].
  - destruct (storage_upload_ok ue); [|by left].
    destruct (decide (storage_write_policy auth_uid fileName)) as [Hown|]; [|by left].
    apply Hpol in Hown.
    destruct (decide (fileName ∈ bucket)) as [Hthere|Hnew]; [by left|].
    unfold request. destruct (db_reachable e); [|by left].
    unfold photos_insert. repeat case_decide; try by left.
    right. cbn [fst snd]. split; [apply elem_of_app; right; apply list_elem_of_here|].
    split; [done|]. by eexists.
  - by intros ->.
  - intros -> Hne. rewrite decide_False; [done|]. by rewrite Hpol.
  - intros -> Hown Hthere. rewrite decide_True by (by apply Hpol). by rewrite decide_True.
  - intros -> Hown Hnew Hdown. rewrite decide_True by (by apply Hpol).
    rewrite decide_False by done. by rewrite request_down.
Qed.

(** The object of "cat.jpg" is stored, the database cannot be reached: the
    object stays, and no row. *)
Lemma upload_failures_witness :
  Home.handleUpload (Env 50 "P9" false true true) (Scenario.upload_at 1730512345678 true)
    (Some "u1") (Some "u1") (Some "cat.jpg") "Cat" "" Scenario.db2 Scenario.bucket0
  = (toast_error "Erro ao salvar foto" request_failed, Scenario.db2,
     Scenario.bucket0 ++ ["u1/1730512345678.jpg"]).
Proof.
  destruct (upload_failures (Env 50 "P9" false true true) (Scenario.upload_at 1730512345678 true)
              (Some "u1") "u1" "cat.jpg" "Cat" "" Scenario.db2 Scenario.bucket0)
    as (_ & _ & _ & _ & Horphan).
  - vm_compute. reflexivity.
  - apply Horphan.
    + reflexivity.
    + reflexivity.
    + by_computation.
    + reflexivity.
Defined.

(** ** Uploading an avatar *)

Lemma handleAvatarUpload_eq e ue auth_uid user_id name db bucket :
  ProfilePage.handleAvatarUpload e ue auth_uid (Some user_id) (Some name) db bucket
  = let fileName := user_id +:+ "/" +:+ "avatar." +:+ file_ext name in
    match storage_upload auth_uid ue true fileName bucket with
    | (Err uploadError, bucket') =>
        (toast_error "Erro ao fazer upload" uploadError, db, bucket', None)
    | (Ok _, bucket') =>
        match request e (profiles_update auth_uid user_id
                           (ProfilePage.set_avatar_url (getPublicUrl ue fileName)) db) with
        | Err updateError =>
            (toast_error "Erro ao atualizar avatar" updateError, db, bucket',
             Some (getPublicUrl ue fileName))
        | Ok db' =>
            (toast_info "Avatar atualizado!", db', bucket', Some (getPublicUrl ue fileName))
        end
    end.
Proof. done. Qed.

(** An avatar goes to one object per user and extension, in the folder of
    the user, and a second upload replaces it: the bucket gains the object
    the first time and stays as it is afterwards. The profile of the user
    gets the public address of the object for its avatar and keeps its name;
    the profiles of the other users are not touched; the form holds the
    address. *)
Theorem avatar_upload_sets_avatar (e : env) (ue : upload_env) (u : uuid) (name : string)
    (db : database) (bucket : list string) :
  db_reachable e = true → storage_upload_ok ue = true → String.index 0 "/" u = None →
  NoDup (Profile.user_id <$> profiles db) → u ∈ Profile.user_id <$> profiles db →
  let fileName := u +:+ "/avatar." +:+ file_ext name in
  let '(shown, db', bucket', held) :=
    ProfilePage.handleAvatarUpload e ue (Some u) (Some u) (Some name) db bucket in
  shown = toast_info "Avatar atualizado!"
  ∧ held = Some (getPublicUrl ue fileName)
  ∧ bucket' = (if decide (fileName ∈ bucket) then bucket else bucket ++ [fileName])
  ∧ (∃ p, filter (λ p, Profile.user_id p = u) (profiles db) = [p]
          ∧ filter (λ p, Profile.user_id p = u) (profiles db')
            = [Profile.mk (Profile.id p) u (Profile.display_name p)
                 (Some (getPublicUrl ue fileName)) (Profile.created_at p)])
  ∧ filter (λ p, Profile.user_id p ≠ u) (profiles db')
    = filter (λ p, Profile.user_id p ≠ u) (profiles db)
  ∧ photos db' = photos db.
Proof.
  intros He Hup Hslash Hnd Hu fileName. rewrite handleAvatarUpload_eq. cbv zeta.
  change (u +:+ "/" +:+ "avatar." +:+ file_ext name) with fileName.
  assert (Hpol : storage_write_policy (Some u) fileName).
  { apply (storage_write_policy_own u ("avatar." +:+ file_ext name) Hslash). }
  unfold storage_upload. rewrite Hup, decide_True by done.
  rewrite request_reachable by done. unfold profiles_update.
  set (upd := λ p, if decide (profiles_write_policy (Some u) p ∧ Profile.user_id p = u)
                   then ProfilePage.set_avatar_url (getPublicUrl ue fileName) p else p).
  assert (Hkey : ∀ p, Profile.user_id (upd p) = Profile.user_id p).
  { intros p. unfold upd. by case_decide. }
  destruct (filter_by_key Profile.user_id (profiles db) u Hnd Hu) as (p & Hp & Hpu).
  assert (Hrest : (∃ p, filter (λ p, Profile.user_id p = u) (profiles db) = [p]
            ∧ filter (λ p, Profile.user_id p = u) (upd <$> profiles db)
              = [Profile.mk (Profile.id p) u (Profile.display_name p)
                   (Some (getPublicUrl ue fileName)) (Profile.created_at p)])
          ∧ filter (λ p, Profile.user_id p ≠ u) (upd <$> profiles db)
            = filter (λ p, Profile.user_id p ≠ u) (profiles db)).
  { split.
    - exists p. split; [done|].
      rewrite (filter_fmap_key Profile.user_id) by done. rewrite Hp. simpl. f_equal.
      unfold upd. rewrite decide_True.
      + unfold ProfilePage.set_avatar_url. congruence.
      + split; [|done]. unfold profiles_write_policy, owns. by rewrite Hpu.
    - apply filter_fmap_fixed; [intros x; by rewrite Hkey|].
      intros x Hx. unfold upd. rewrite decide_False; [done|]. by intros [_ ?]. }
  destruct Hrest as [Hmine Hothers].
  destruct (decide (fileName ∈ bucket)); by repeat split.
Qed.

(** [u1] uploads "me.png" for an avatar, twice. *)
Lemma avatar_upload_sets_avatar_witness :
  let '(_, db1, bucket1, _) :=
    ProfilePage.handleAvatarUpload (Scenario.env_at 50 "g") (Scenario.upload_at 1 true)
      (Some "u1") (Some "u1") (Some "me.png") Scenario.db2 Scenario.bucket0 in
  bucket1 = Scenario.bucket0 ++ ["u1/avatar.png"]
  ∧ (ProfilePage.handleAvatarUpload (Scenario.env_at 51 "g") (Scenario.upload_at 2 true)
       (Some "u1") (Some "u1") (Some "me.png") db1 bucket1).1.2 = bucket1.
Proof.
  pose proof (avatar_upload_sets_avatar (Scenario.env_at 50 "g") (Scenario.upload_at 1 true)
                "u1" "me.png" Scenario.db2 Scenario.bucket0) as H1.
  destruct (ProfilePage.handleAvatarUpload _ _ _ _ _ Scenario.db2 _)
    as [[[shown db1] bucket1] held] eqn:Hrun in H1 |- *.
  destruct H1 as (_ & _ & Hb1 & _); [reflexivity|reflexivity|vm_compute; reflexivity| | |].
  - by_computation.
  - by_computation.
  - vm_compute in Hrun. injection Hrun as <- <- <- <-. split; reflexivity.
Defined.

(** ** What a signed-in user cannot touch *)







(** ** The constraints of the schema under the pages *)

Lemma request_schema_ok auth_uid e s db :
  schema_ok db →
  schema_ok match request e (execute auth_uid e s db) with Ok db' => db' | Err _ => db end.
Proof. intros Hok. apply (apply_statement_schema_ok db (auth_uid, e, s) Hok). Qed.

(** Whatever a page does, with whatever input, session and outcome of its
    requests, the database it leaves satisfies the constraints of the schema
    when the database it found did: the primary keys, the [unique] on
    [profiles.user_id] and the foreign keys. This holds for the eight
    handlers that write: upload and delete of a photo, create and delete of
    an album, add to and remove from an album, save of the profile and
    upload of an avatar. *)
Theorem handlers_keep_constraints (e : env) (ue : upload_env) (auth_uid : option uuid)
    (db : database) :
  schema_ok db →
  (∀ user file title description bucket,
     schema_ok (Home.handleUpload e ue auth_uid user file title description db bucket).1.2)
  ∧ (∀ photoId photoUrl bucket,
       schema_ok (Home.handleDelete e auth_uid photoId photoUrl db bucket).1.2)
  ∧ (∀ user name description,
       schema_ok (Albums.handleCreate e auth_uid user name description db).2)
  ∧ (∀ albumId, schema_ok (Albums.handleDelete e auth_uid albumId db).2)
  ∧ (∀ id selectedPhotos,
       schema_ok (AlbumDetail.handleAddPhotos e auth_uid id selectedPhotos db).2)
  ∧ (∀ id photoId, schema_ok (AlbumDetail.handleRemovePhoto e auth_uid id photoId db).2)
  ∧ (∀ user displayName avatarUrl,
       schema_ok (ProfilePage.handleSave e auth_uid user displayName avatarUrl db).2)
  ∧ (∀ user file bucket,
       schema_ok (ProfilePage.handleAvatarUpload e ue auth_uid user file db bucket).1.1.2).
Proof.
  intros Hok. split_and!.
  - intros [u|] [name|] title description bucket; try done.
    rewrite handleUpload_eq. cbv zeta.
    destruct (storage_upload _ _ _ _ _) as [[?|?] bucket']; [|done].
    pose proof (request_schema_ok auth_uid e
                  (insert_photos u
                     (Some (getPublicUrl ue
                              (u +:+ "/" +:+ pretty (date_now ue) +:+ "." +:+ file_ext name)))
                     (or_null title) (or_null description)) db Hok) as H.
    cbn [execute] in H. by destruct (request e _).
  - intros photoId photoUrl bucket. rewrite handleDelete_photo_eq.
    destruct (confirm e); [|done]. cbv zeta.
    pose proof (request_schema_ok auth_uid e (delete_photos photoId) db Hok) as H.
    cbn [execute] in H. by destruct (request e _).
  - intros [u|] name description; [|done]. unfold Albums.handleCreate.
    pose proof (request_schema_ok auth_uid e
                  (insert_albums u (Some name) (or_null description)) db Hok) as H.
    cbn [execute] in H. by destruct (request e _).
  - intros albumId. unfold Albums.handleDelete. destruct (confirm e); [|done].
    pose proof (request_schema_ok auth_uid e (delete_albums albumId) db Hok) as H.
    cbn [execute] in H. by destruct (request e _).
  - intros [id|] [|p S]; try done. rewrite handleAddPhotos_cons.
    pose proof (request_schema_ok auth_uid e
                  (insert_album_photos ((λ x, (id, x)) <$> p :: S)) db Hok) as H.
    cbn [execute] in H. by destruct (request e _).
  - intros [id|] photoId; [|done]. unfold AlbumDetail.handleRemovePhoto.
    pose proof (request_schema_ok auth_uid e (delete_album_photos id photoId) db Hok) as H.
    cbn [execute] in H. by destruct (request e _).
  - intros [u|] displayName avatarUrl; [|done]. rewrite handleSave_eq.
    pose proof (request_schema_ok auth_uid e
                  (update_profiles_fields u displayName avatarUrl) db Hok) as H.
    cbn [execute] in H. by destruct (request e _).
  - intros [u|] [name|] bucket; try done.
    rewrite handleAvatarUpload_eq. cbv zeta.
    destruct (storage_upload _ _ _ _ _) as [[?|?] bucket']; [|done].
    pose proof (request_schema_ok auth_uid e
                  (update_profiles_avatar u
                     (getPublicUrl ue (u +:+ "/" +:+ "avatar." +:+ file_ext name))) db Hok) as H.
    cbn [execute] in H. by destruct (request e _).
Qed.

(** After the upload of "cat.jpg" by [u1], no two photos have one id. *)
Lemma handlers_keep_constraints_witness :
  NoDup (Photo.id <$> photos
           (Home.handleUpload (Scenario.env_at 50 "P9") (Scenario.upload_at 1730512345678 true)
              (Some "u1") (Some "u1") (Some "cat.jpg") "Cat" "" Scenario.db2
              Scenario.bucket0).1.2).
Proof.
  apply photos_pkey.
  refine (proj1 (handlers_keep_constraints (Scenario.env_at 50 "P9")
                   (Scenario.upload_at 1730512345678 true) (Some "u1") Scenario.db2 _)
            (Some "u1") (Some "cat.jpg") "Cat" "" Scenario.bucket0).
  apply schema_check_ok. vm_compute. reflexivity.
Defined.

(** ** The names of the objects *)

Lemma string_app_cancel_l (x y z : string) : x +:+ y = x +:+ z → y = z.
Proof.
  induction x as [|c x IH]; [done|]. rewrite !string_app_cons. intros [= H]. by apply IH.
Qed.

(** The decimal digits of a number do not start with the letter [a]. *)
Lemma pretty_N_go_ne_a (x : N) (s : string) :
  (∀ r, s ≠ String "a" r) → ∀ r, pretty_N_go x s ≠ String "a" r.
Proof.
  revert s. induction (N.lt_wf_0 x) as [x _ IH]; intros s Hs.
  assert (x = 0 ∨ 0 < x)%N as [->|Hpos] by lia.
  - by rewrite pretty_N_go_0.
  - rewrite pretty_N_go_step by done. apply IH.
    { by apply N.div_lt. }
    intros r. unfold pretty_N_char. by repeat case_match.
Qed.

Lemma pretty_N_ne_a (t : N) (r : string) : pretty t ≠ String "a" r.
Proof.
  unfold pretty, pretty_N. case_decide; [done|]. by apply pretty_N_go_ne_a.
Qed.

(** The name [handleAvatarUpload] gives to an object is never a name
    [handleUpload] gives to one. *)
Lemma avatar_name_is_no_photo_name (u u' : uuid) (t : N) (ext ext' : string) :
  String.index 0 "/" u = None → String.index 0 "/" u' = None →
  u +:+ "/" +:+ "avatar." +:+ ext ≠ u' +:+ "/" +:+ pretty t +:+ "." +:+ ext'.
Proof.
  intros Hu Hu' Heq.
  pose proof (foldername_1_own u ("avatar." +:+ ext) Hu) as Hf.
  rewrite Heq, (foldername_1_own u' _ Hu') in Hf. injection Hf as ->.
  apply string_app_cancel_l in Heq. apply (string_app_cancel_l "/") in Heq.
  destruct (pretty t) as [|c p] eqn:Ht.
  - by destruct ext'.
  - change ("avatar." +:+ ext) with (String "a" ("vatar." +:+ ext)) in Heq.
    rewrite string_app_cons in Heq. injection Heq as <- _.
    by apply (pretty_N_ne_a t p).
Qed.

(** The address an avatar upload puts into the profile form is never the
    address of a photo that an upload on the page of photos has stored, for
    whatever users, files and times, on one storage service: the name of an
    avatar object starts with [avatar.] where the name of a photo object
    starts with the digits of a time. An avatar upload, which replaces the
    object of its name, therefore replaces no photo. *)
Theorem avatar_address_is_no_photo_address (e e' : env) (ue ue' : upload_env)
    (a a' : option uuid) (u u' : uuid) (name name' title description : string)
    (db db' : database) (bucket bucket' : list string) (url : string) (row : Photo.t) :
  String.index 0 "/" u = None → String.index 0 "/" u' = None →
  storage_url ue = storage_url ue' →
  (ProfilePage.handleAvatarUpload e ue a (Some u) (Some name) db bucket).2 = Some url →
  photos (Home.handleUpload e' ue' a' (Some u') (Some name') title description db' bucket').1.2
  = photos db' ++ [row] →
  Photo.url row ≠ url.
Proof.
  intros Hu Hu' Hbase Hheld Hrow Heq.
  assert (Hnot : ∀ l : list Photo.t, l ≠ l ++ [row]).
  { intros l Hl. apply (f_equal length) in Hl. rewrite length_app in Hl. simpl in Hl. lia. }
  rewrite handleAvatarUpload_eq in Hheld. cbv zeta in Hheld.
  rewrite handleUpload_eq in Hrow. cbv zeta in Hrow.
  destruct (storage_upload a ue true _ bucket) as [[?|?] b1]; [|done].
  assert (url = getPublicUrl ue (u +:+ "/" +:+ "avatar." +:+ file_ext name)) as ->.
  { destruct (request e _); simpl in Hheld; by injection Hheld. }
  clear Hheld.
  destruct (storage_upload a' ue' false _ bucket') as [[?|?] b2]; simpl in Hrow;
    [|by apply Hnot in Hrow].
  destruct (request e' _) as [db1|] eqn:Hins; simpl in Hrow; [|by apply Hnot in Hrow].
  unfold request in Hins. destruct (db_reachable e'); [|done].
  unfold photos_insert in Hins. repeat case_decide; simplify_eq/=.
  unfold getPublicUrl in Heq. rewrite Hbase in Heq.
  apply string_app_cancel_l in Heq.
  apply (string_app_cancel_l "/object/public/photos/") in Heq.
  by apply (avatar_name_is_no_photo_name u u' (date_now ue') (file_ext name) (file_ext name')).
Qed.

(** [u1] uploads "cat.jpg" for a photo and "me.png" for an avatar. *)
Lemma avatar_address_is_no_photo_address_witness :
  "https://h/storage/v1/object/public/photos/u1/1730512345678.jpg"
  ≠ "https://h/storage/v1/object/public/photos/u1/avatar.png".
Proof.
  apply (avatar_address_is_no_photo_address
           (Scenario.env_at 51 "g") (Scenario.env_at 50 "P9")
           (Scenario.upload_at 1730512349999 true) (Scenario.upload_at 1730512345678 true)
           (Some "u1") (Some "u1") "u1" "u1" "me.png" "cat.jpg" "Cat" ""
           Scenario.db2 Scenario.db2 Scenario.bucket0 Scenario.bucket0
           "https://h/storage/v1/object/public/photos/u1/avatar.png"
           (Photo.mk "P9" "u1" "https://h/storage/v1/object/public/photos/u1/1730512345678.jpg"
              (Some "Cat") None 50)).
  - vm_compute. reflexivity.
  - vm_compute. reflexivity.
  - reflexivity.
  - vm_compute. reflexivity.
  - vm_compute. reflexivity.
Defined.
